(** * Session supervisor, closing-keyword detector, audio gate and
      transcript viewer of the voice-agent demo

    The development follows the repository:
    - [PyStr]: the Python string operations the guide's excerpts use
      ([str.lower], [in]);
    - [Supervisor]: the three excerpts of the end-of-conversation guide
      ([signal_handler], [on_agent_response], [wait_with_timeout]);
    - [Shutdown]: runs of the supervisor under any number of interrupts;
    - [AudioGate]: the half-duplex microphone gate
      ([EchoCancellationAudioInterface]);
    - [ControlTower]: [handleViewTranscript] of the dashboard;
    - [Dashboard]: the other functions of ControlTower.tsx;
    - [Session]: the excerpts over a whole conversation. *)

From Stdlib Require Import List String Ascii Bool NArith ZArith QArith Qminmax Lia
  DecimalString.
Import ListNotations.

(* ================================================================== *)
(** * Python strings                                                    *)
(* ================================================================== *)

Module PyStr.

Local Open Scope N_scope.
Local Open Scope list_scope.

(** A Python [str] is a sequence of Unicode code points. *)
Definition str := list N.

(** A literal of the source, written with ASCII characters only. *)
Definition lit (s : string) : str := map N_of_ascii (list_ascii_of_string s).

(** An f-string [f"<prefix>{e}"] with an ASCII prefix. *)
Definition fmt (prefix : string) (e : str) : str := lit prefix ++ e.

(** [str.lower()] on one code point: the Basic Latin capitals, the Latin-1
    capitals (U+00C0..U+00DE but the multiplication sign U+00D7), and the two
    French capitals outside Latin-1 (U+0152, U+0178).  Other code points are
    left as they are. *)
Definition lower_cp (c : N) : N :=
  if (65 <=? c) && (c <=? 90) then c + 32
  else if (192 <=? c) && (c <=? 222) && negb (c =? 215) then c + 32
  else if c =? 338 then 339
  else if c =? 376 then 255
  else c.

Definition lower (s : str) : str := map lower_cp s.

Fixpoint starts_with (k s : str) : bool :=
  match k, s with
  | [], _ => true
  | _ :: _, [] => false
  | a :: k', b :: s' => (a =? b) && starts_with k' s'
  end.

(** [k in s] for two strings: [k] occurs in [s] as a contiguous run. *)
Fixpoint contains (k s : str) : bool :=
  starts_with k s ||
  match s with
  | [] => false
  | _ :: s' => contains k s'
  end.

(** The spec's words: [k] is a substring of [s]. *)
Definition substring (k s : str) : Prop :=
  exists pre post, s = pre ++ k ++ post.

(** The spec's words: a case-insensitive substring match compares both
    sides with their case folded. *)
Definition ci_substring (k s : str) : Prop :=
  substring (lower k) (lower s).

End PyStr.

(* ================================================================== *)
(** * Session supervisor (end-of-conversation guide)                    *)
(* ================================================================== *)

Module Supervisor.

Import PyStr.
Local Open Scope N_scope.
Local Open Scope list_scope.

(** ** Opaque calls

    [conversation.end_session()], [conversation.wait_for_session_end()] and
    the transcript write are calls into the SDK and the runtime.  All the
    excerpts see of such a call is how it ends and after how long
    (milliseconds). *)
Inductive behaviour :=
| Returns (d : N)            (* returns after [d] ms *)
| Raises (d : N) (e : str)   (* raises [Exception(e)] after [d] ms *)
| Hangs.                     (* never comes back *)

Definition duration (b : behaviour) : option N :=
  match b with
  | Returns d | Raises d _ => Some d
  | Hangs => None
  end.

Inductive callee := EndSession | WaitForSessionEnd | SaveTranscript.

Inductive thread := WaitThread | EndThread (k : nat).

(** What an observer of the process sees. *)
Inductive event :=
| Sigint                          (* the interpreter runs the SIGINT handler *)
| Print (s : str)                 (* [print(s)] *)
| FlagSet                         (* [shutdown_flag.set()] *)
| Start (th : thread)             (* [th.start()] *)
| Call (f : callee)               (* [f] is entered *)
| Done (f : callee)               (* [f] returned *)
| Raised (f : callee) (e : str)   (* [f] raised [Exception(e)] *)
| Assign (id : str)               (* [conversation_id = id] *)
| Joined (th : thread)            (* [th.join(...)] came back, [th] is over *)
| JoinTimeout (th : thread)       (* [th.join(timeout)] came back on the timeout *)
| Exit (code : Z).                (* [os._exit(code)] *)

Inductive liveness := Alive | Exited (code : Z) | Blocked.

(** The process: a clock, the globals of the script, the log of what
    happened so far, and what the background threads will do later. *)
Record proc := mkProc {
  now : N;
  shutdown_flag : bool;
  conversation_id : option str;
  transcript : list (str * str);
  threads : list (thread * option N);   (* when each started thread is over *)
  trace : list (N * event);             (* oldest first *)
  pending : list (N * event);           (* future events of the threads, by time *)
  status : liveness
}.

Definition boot : proc :=
  mkProc 0 false None [] [] [] [] Alive.

(** The spec's three-valued supervisor state, read off the process. *)
Inductive SupervisorState := Running | ShuttingDown | Terminated.

Definition supervisor_state (p : proc) : SupervisorState :=
  match status p with
  | Exited _ => Terminated
  | _ => if shutdown_flag p then ShuttingDown else Running
  end.

(** The environment fixes how every opaque call of a run behaves.  The
    handler may run more than once, so its calls are numbered by the
    invocation that makes them. *)
Inductive shutdown_path := Normal | Handler (k : nat).

Record env := mkEnv {
  wait_for_session_end : behaviour;
  session_id : str;                      (* what [wait_for_session_end] returns *)
  end_session : nat -> behaviour;
  flush : shutdown_path -> behaviour     (* the write behind [save_transcript_on_exit] *)
}.

(** ** Primitive steps *)

Definition emit (e : event) (p : proc) : proc :=
  mkProc (now p) (shutdown_flag p) (conversation_id p) (transcript p)
         (threads p) (trace p ++ [(now p, e)]) (pending p) (status p).

Definition assigned (c : option str) (te : N * event) : option str :=
  match snd te with
  | Assign id => Some id
  | _ => c
  end.

(** Time passes until [t]: what the threads do up to [t] joins the log. *)
Definition advance (t : N) (p : proc) : proc :=
  let ready := filter (fun te => fst te <=? t) (pending p) in
  mkProc (N.max (now p) t) (shutdown_flag p)
         (fold_left assigned ready (conversation_id p)) (transcript p)
         (threads p) (trace p ++ ready)
         (filter (fun te => negb (fst te <=? t)) (pending p)) (status p).

Fixpoint schedule (te : N * event) (q : list (N * event)) : list (N * event) :=
  match q with
  | [] => [te]
  | x :: q' => if fst x <=? fst te then x :: schedule te q' else te :: q
  end.

(** ** Threads *)

(** The run of a thread body: what it does at once, when it is over (if
    ever), what it does then, and the exception that escapes it. *)
Record thread_run := mkRun {
  at_start : list event;
  finish : option N;
  at_finish : list event;
  uncaught : option str
}.

(** A bare call of [f]. *)
Definition call (f : callee) (b : behaviour) : thread_run :=
  match b with
  | Returns d => mkRun [Call f] (Some d) [Done f] None
  | Raises d e => mkRun [Call f] (Some d) [Raised f e] (Some e)
  | Hangs => mkRun [Call f] None [] None
  end.

(** [body] followed by [more] when [body] completes normally. *)
Definition and_then (body : thread_run) (more : list event) : thread_run :=
  match uncaught body with
  | Some _ => body
  | None => mkRun (at_start body) (finish body) (at_finish body ++ more) None
  end.

(** [try: body / except Exception as e: handler(e)]. *)
Definition try_except (body : thread_run) (handler : str -> list event) : thread_run :=
  match uncaught body with
  | Some e => mkRun (at_start body) (finish body) (at_finish body ++ handler e) None
  | None => body
  end.

(** [t = threading.Thread(target=body); t.start()] *)
Definition spawn (th : thread) (body : thread_run) (p : proc) : proc :=
  let p1 := fold_left (fun q e => emit e q) (Start th :: at_start body) p in
  let over := option_map (N.add (now p1)) (finish body) in
  mkProc (now p1) (shutdown_flag p1) (conversation_id p1) (transcript p1)
         ((th, over) :: threads p1) (trace p1)
         (match over with
          | Some t => fold_left (fun q e => schedule (t, e) q) (at_finish body) (pending p1)
          | None => pending p1
          end)
         (status p1).

Fixpoint over_at (th : thread) (l : list (thread * option N)) : option N :=
  match l with
  | [] => None
  | (th', t) :: l' =>
      match th, th' with
      | WaitThread, WaitThread => t
      | EndThread a, EndThread b => if Nat.eqb a b then t else over_at th l'
      | _, _ => over_at th l'
      end
  end.

(** ** Blocking and signals

    The main thread blocks in [join] and in the transcript write.  CPython
    runs a signal handler in the main thread, on top of whatever the main
    thread is doing; a blocked [join] is interrupted for it.  [next] is the
    next pending SIGINT with the handler run it starts. *)
Definition interrupt := option (N * (proc -> proc)).

Definition arrives_first (s : N) (until : option N) : bool :=
  match until with
  | Some t => s <? t
  | None => true
  end.

Definition block_forever (p : proc) : proc :=
  mkProc (now p) (shutdown_flag p)
         (fold_left assigned (pending p) (conversation_id p)) (transcript p)
         (threads p) (trace p ++ pending p) [] Blocked.

Definition resume (until : option N) (cont : proc -> proc) (p : proc) : proc :=
  match until with
  | Some t => cont (advance t p)
  | None => block_forever p
  end.

Definition interruptible (until : option N) (next : interrupt)
    (cont : proc -> proc) (p : proc) : proc :=
  match next with
  | Some (s, handler) =>
      if arrives_first s until then handler (emit Sigint (advance s p))
      else resume until cont p
  | None => resume until cont p
  end.

Definition earliest (a b : option N) : option N :=
  match a, b with
  | Some x, Some y => Some (N.min x y)
  | Some x, None => Some x
  | None, y => y
  end.

Definition over_by (a : option N) (t : N) : bool :=
  match a with
  | Some x => x <=? t
  | None => false
  end.

(** [th.join(timeout)]; [timeout = None] is the plain [th.join()]. *)
Definition join (th : thread) (timeout : option N) (next : interrupt)
    (cont : proc -> proc) (p : proc) : proc :=
  let over := over_at th (threads p) in
  let deadline := option_map (N.add (now p)) timeout in
  interruptible (earliest over deadline) next
    (fun q => cont (emit (if over_by over (now q) then Joined th else JoinTimeout th) q)) p.

(** [os._exit(code)]: the process is gone, its threads with it. *)
Definition os_exit (code : Z) (p : proc) : proc :=
  mkProc (now p) (shutdown_flag p) (conversation_id p) (transcript p)
         (threads p) (trace p ++ [(now p, Exit code)]) [] (Exited code).

(** ** The excerpts *)

(** [force_end], the target of [end_thread]:
<<
    try:
        conversation.end_session()
    except Exception as e:
        print(f"Error ending session: {e}")
>> *)
Definition force_end (e : env) (k : nat) : thread_run :=
  try_except (call EndSession (end_session e k))
             (fun msg => [Print (fmt "Error ending session: " msg)]).

(** [wait_with_timeout], the target of [wait_thread]:
<<
    try:
        conversation_id = conversation.wait_for_session_end()
    except Exception as e:
        print(f"\n[ERROR] Session ended with error: {e}")
>> *)
Definition wait_with_timeout (e : env) : thread_run :=
  try_except (and_then (call WaitForSessionEnd (wait_for_session_end e))
                       [Assign (session_id e)])
             (fun msg => [Print (10 :: fmt "[ERROR] Session ended with error: " msg)]).

(** Modelled from the spec: the body of [save_transcript_on_exit] is not part
    of the guide.  The spec has the flush call wrapped, "so an exception there
    is logged but never prevents exit"; the text of the log line is ours.
    The write itself is the opaque [flush] of the environment. *)
Definition save_transcript_on_exit (b : behaviour) (next : interrupt)
    (cont : proc -> proc) (p : proc) : proc :=
  let p1 := emit (Call SaveTranscript) p in
  interruptible (option_map (N.add (now p1)) (duration b)) next
    (fun q =>
       cont match b with
            | Raises _ msg =>
                emit (Print (fmt "Error saving transcript: " msg))
                     (emit (Raised SaveTranscript msg) q)
            | _ => emit (Done SaveTranscript) q
            end)
    p1.

Definition set_shutdown_flag (p : proc) : proc :=
  emit FlagSet
    (mkProc (now p) true (conversation_id p) (transcript p)
            (threads p) (trace p) (pending p) (status p)).

(** [signal_handler(sig, frame)], the [k]-th time the interpreter runs it;
    [sigs] are the arrival times of the interrupts still to come.
<<
    print("\n\nEnding conversation...")
    shutdown_flag.set()
    end_thread = threading.Thread(target=force_end)
    end_thread.daemon = True
    end_thread.start()
    end_thread.join(timeout=2.0)
    save_transcript_on_exit()
    os._exit(0)
>> *)
Fixpoint signal_handler (e : env) (k : nat) (sigs : list N) (p : proc)
    {struct sigs} : proc :=
  let next : interrupt :=
    match sigs with
    | [] => None
    | s :: rest => Some (s, signal_handler e (S k) rest)
    end in
  let p1 := emit (Print (10 :: 10 :: lit "Ending conversation...")) p in
  let p2 := set_shutdown_flag p1 in
  let p3 := spawn (EndThread k) (force_end e k) p2 in
  join (EndThread k) (Some 2000) next
    (save_transcript_on_exit (flush e (Handler k)) next (os_exit 0)) p3.

(** Modelled from the spec: what the script does once [wait_thread.join()]
    is back is not part of the guide.  The spec: "On notification, proceeds
    to normal shutdown (flush transcript, exit code 0)". *)
Definition normal_shutdown (e : env) (next : interrupt) (p : proc) : proc :=
  save_transcript_on_exit (flush e Normal) next (os_exit 0) p.

(** The main thread, with [signal_handler] installed for SIGINT:
<<
    wait_thread = threading.Thread(target=wait_with_timeout)
    wait_thread.start()
    wait_thread.join()
>>
    followed by the normal shutdown. *)
Definition run_session (e : env) (sigs : list N) : proc :=
  let next : interrupt :=
    match sigs with
    | [] => None
    | s :: rest => Some (s, signal_handler e 0 rest)
    end in
  let p1 := spawn WaitThread (wait_with_timeout e) boot in
  join WaitThread None next (normal_shutdown e next) p1.

(** ** Closing-keyword detector *)

(** [end_keywords] of [on_agent_response]; U+00E9 is the e-acute of
    "bonne journee". *)
Definition end_keywords : list str :=
  [ lit "au revoir"; lit "goodbye"; lit "je vais raccrocher";
    lit "merci de votre temps"; lit "bonne journ" ++ [233] ++ lit "e" ].

(** [any(keyword in response.lower() for keyword in end_keywords)] *)
Definition agent_is_ending (response : str) : bool :=
  existsb (fun keyword => contains keyword (lower response)) end_keywords.

(** Modelled from the spec: [capture_message] is not part of the guide; the
    Transcript Sink's [append(speaker, text)] adds one turn at the end. *)
Definition capture_message (speaker text : str) (p : proc) : proc :=
  mkProc (now p) (shutdown_flag p) (conversation_id p)
         (transcript p ++ [(speaker, text)])
         (threads p) (trace p) (pending p) (status p).

(** [on_agent_response(response)]:
<<
    capture_message("agent", response)
    end_keywords = [...]
    if any(keyword in response.lower() for keyword in end_keywords):
        print("\n[INFO] Agent is ending the conversation...")
>> *)
Definition on_agent_response (response : str) (p : proc) : proc :=
  let p1 := capture_message (lit "agent") response p in
  if agent_is_ending response
  then emit (Print (10 :: lit "[INFO] Agent is ending the conversation...")) p1
  else p1.

(** ** Observations on a run *)

Definition events (p : proc) : list event := map snd (trace p).

Definition is_exit (e : event) : bool :=
  match e with Exit _ => true | _ => false end.

Definition is_flush (e : event) : bool :=
  match e with Call SaveTranscript => true | _ => false end.

Definition is_end_session (e : event) : bool :=
  match e with Call EndSession => true | _ => false end.

Definition is_join_back (e : event) : bool :=
  match e with Joined (EndThread _) | JoinTimeout (EndThread _) => true | _ => false end.

Definition is_sigint (e : event) : bool :=
  match e with Sigint => true | _ => false end.

Definition count (f : event -> bool) (p : proc) : nat :=
  List.length (filter f (events p)).

(** The first [f]-event of [l] comes strictly before its first [g]-event,
    and there is a [g]-event. *)
Fixpoint comes_first (f g : event -> bool) (l : list event) : bool :=
  match l with
  | [] => false
  | x :: l' =>
      if g x then false
      else if f x then existsb g l'
      else comes_first f g l'
  end.

(** The control events of a run: what the main thread does, and the calls
    the threads enter when they start.  The rest (a thread's call coming
    back, what it assigns, everything printed) may fall anywhere in between. *)
Definition milestone (e : event) : bool :=
  match e with
  | Sigint | FlagSet | Start _ | Call _ | Joined _ | JoinTimeout _ | Exit _ => true
  | Done SaveTranscript | Raised SaveTranscript _ => true
  | Done _ | Raised _ _ | Print _ | Assign _ => false
  end.

Definition milestones (p : proc) : list event := filter milestone (events p).

(** The line each [except] clause prints. *)
Definition log_line (f : callee) (msg : str) : str :=
  match f with
  | EndSession => fmt "Error ending session: " msg
  | WaitForSessionEnd => 10 :: fmt "[ERROR] Session ended with error: " msg
  | SaveTranscript => fmt "Error saving transcript: " msg
  end.

(** Every exception of a log is followed up by its line. *)
Definition logged (l : list (N * event)) : Prop :=
  forall t f msg, In (t, Raised f msg) l -> In (t, Print (log_line f msg)) l.

(** Nothing in [l] is a control event. *)
Definition quiet (l : list (N * event)) : Prop :=
  Forall (fun te => milestone (snd te) = false) l.

(** When the process exited, if it did. *)
Definition exit_time (p : proc) : option N :=
  match status p with
  | Exited _ => Some (now p)
  | _ => None
  end.

(** ** Termination paths *)

(** The session is still on at time [s]: [wait_for_session_end] has not
    come back, the main thread is blocked in [wait_thread.join()]. *)
Definition running_at (e : env) (s : N) : Prop :=
  match duration (wait_for_session_end e) with
  | Some dw => s < dw
  | None => True
  end.

Definition terminates (b : behaviour) : Prop := duration b <> None.

(** The ways a session ends: the remote end closes it (or the wait for that
    fails), or the operator interrupts it at time [s]. *)
Inductive termination_path := NormalCompletion | Interrupted (s : N).

Definition signals (pt : termination_path) : list N :=
  match pt with
  | NormalCompletion => []
  | Interrupted s => [s]
  end.

Definition takes_path (e : env) (pt : termination_path) : Prop :=
  match pt with
  | NormalCompletion => terminates (wait_for_session_end e)
  | Interrupted s => running_at e s
  end.

Definition flush_of (pt : termination_path) : shutdown_path :=
  match pt with
  | NormalCompletion => Normal
  | Interrupted _ => Handler 0
  end.


(** Two environments to run the script in: a remote end that never answers,
    and one that fails. *)
Definition silent_remote : env :=
  mkEnv Hangs (lit "conv_1") (fun _ => Hangs) (fun _ => Returns 50).

Definition failing_remote : env :=
  mkEnv (Raises 5000 (lit "connection lost")) (lit "conv_2")
        (fun _ => Raises 300 (lit "socket closed"))
        (fun _ => Raises 20 (lit "disk full")).

(** ** Notions the proofs use *)

(** A thread body is tame when nothing it does on completion is a control
    event; the two bodies of the guide are. *)
Definition tame (r : thread_run) : Prop :=
  Forall (fun x => milestone x = false) (at_finish r).

(** A predicate that only holds of control events sees the same order and
    the same number of them in [milestones p] as in [events p]. *)
Definition within (f : event -> bool) : Prop :=
  forall x, f x = true -> milestone x = true.

(** Both the log and the future of the threads pair every exception with
    its line. *)
Definition tidy (p : proc) : Prop := logged (trace p) /\ logged (pending p).

(** A thread body that raises nothing at its start and logs what it
    raises at its end. *)
Definition polite (r : thread_run) : Prop :=
  (forall f msg, ~ In (Raised f msg) (at_start r)) /\
  (forall f msg, In (Raised f msg) (at_finish r) ->
                 In (Print (log_line f msg)) (at_finish r)).

(** How many events of [l] satisfy [f]. *)
Definition occ (f : event -> bool) (l : list event) : nat :=
  List.length (filter f l).

End Supervisor.

(* ================================================================== *)
(** * Session supervisor: any number of interrupts                      *)
(* ================================================================== *)

Module Shutdown.

Import PyStr Supervisor.
Local Open Scope N_scope.
Local Open Scope list_scope.

(** ** Observations with times *)

(** The control events of a run, each with its time. *)
Definition stamped (p : proc) : list (N * event) :=
  filter (fun te => milestone (snd te)) (trace p).

(** The times of the interrupts in a log. *)
Definition sigints (l : list (N * event)) : list N :=
  map fst (filter (fun te => is_sigint (snd te)) l).

(** When the interpreter ran the SIGINT handler. *)
Definition taken (p : proc) : list N := sigints (trace p).

(** Arrival times listed in the order of arrival. *)
Fixpoint ascending (l : list N) : bool :=
  match l with
  | a :: (b :: _) as l' => (a <=? b) && ascending l'
  | _ => true
  end.

(** How long [end_thread.join(timeout=2.0)] of the [k]-th handler run
    blocks when nothing interrupts it: until [end_session()] is over, and
    2000 ms at most. *)
Definition join_length (e : env) (k : nat) : N :=
  match duration (end_session e k) with
  | Some d => N.min d 2000
  | None => 2000
  end.

(** How that join comes back: with the thread over, or on the timeout. *)
Definition join_back (e : env) (k : nat) : event :=
  if over_by (duration (end_session e k)) 2000
  then Joined (EndThread k) else JoinTimeout (EndThread k).

(** How a transcript write that comes back shows in the log. *)
Definition flush_result (b : behaviour) : event :=
  match b with
  | Raises _ msg => Raised SaveTranscript msg
  | _ => Done SaveTranscript
  end.

(** ** The claims' words *)

(** "Within the fixed timeout bound (2 seconds) plus a small constant"
    [eps] after an interrupt delivered in [Running], the constant covering
    the transcript write. *)
Definition exits_within_timeout (eps : N) : Prop :=
  forall e s rest,
    running_at e s -> ascending (s :: rest) = true ->
    (forall k, exists f, duration (flush e (Handler k)) = Some f /\ f <= eps) ->
    exists T, exit_time (run_session e (s :: rest)) = Some T /\ T <= s + 2000 + eps.

(** "The flush is never attempted before the [end_session()] attempt has
    completed or been abandoned": once a flush has been attempted, no
    [end_session()] attempt is still to start, to complete or to be given
    up. *)
Definition flush_after_end_session (l : list event) : Prop :=
  forall l1 l2, l = l1 ++ Call SaveTranscript :: l2 ->
  forall x, In x l2 -> is_end_session x = false /\ is_join_back x = false.

(** ** What holds instead *)

(** The join that a flush follows: [wait_thread.join()] on the normal
    path; in the handler, [end_thread.join(timeout=2.0)] coming back for the
    [end_session()] thread that this run of the handler started. *)
Definition after_join (l : list event) : Prop :=
  (exists l0, l = l0 ++ [Joined WaitThread])
  \/ (exists l0 k J,
        l = l0 ++ [Start (EndThread k); Call EndSession; J]
        /\ (J = Joined (EndThread k) \/ J = JoinTimeout (EndThread k))).

(** Every flush in [l] is attempted directly after such a join. *)
Definition flush_follows_join (l : list event) : Prop :=
  forall l1 l2, l = l1 ++ Call SaveTranscript :: l2 -> after_join l1.

(** [l] ends with a flush that came back, and then the one exit. *)
Definition exits_after_flush (l : list event) : Prop :=
  exists l0 r,
    l = l0 ++ [Call SaveTranscript; r; Exit 0]
    /\ (r = Done SaveTranscript \/ exists msg, r = Raised SaveTranscript msg)
    /\ occ is_exit l0 = 0%nat.

(** ** Examples *)

(** [m] interrupts, one second apart, the first one second after [s]. *)
Fixpoint burst (s : N) (m : nat) : list N :=
  match m with
  | O => []
  | S m' => (s + 1000) :: burst (s + 1000) m'
  end.

(** Two more environments: a remote end that never answers, with a
    transcript write that takes no time, and with one that never returns. *)
Definition instant_writer : env :=
  mkEnv Hangs (lit "conv_1") (fun _ => Hangs) (fun _ => Returns 0).

Definition stuck_writer : env :=
  mkEnv Hangs (lit "conv_1") (fun _ => Hangs) (fun _ => Hangs).

(** ** Notions the proofs use

    The plan of a run is what its control events will be, and when the
    process will be gone if ever, computed from the durations of the opaque
    calls and the arrival times of the interrupts alone.  The facts show
    that a run follows its plan; what the claims say of runs with any
    number of interrupts is then read off plans. *)
Definition plan := (list (N * event) * option N)%type.

(** [l], then [r]. *)
Definition after (l : list (N * event)) (r : plan) : plan := (l ++ fst r, snd r).

(** Nothing more happens: the main thread waits for ever. *)
Definition blocked : plan := ([], None).

Definition resumed (until : option N) (done : N -> plan) : plan :=
  match until with
  | Some v => done v
  | None => blocked
  end.

(** The plan at a blocking point entered at [from], as [interruptible]. *)
Definition blocking (from : N) (until : option N)
    (next : option (N * (N -> plan))) (done : N -> plan) : plan :=
  match next with
  | Some (s, h) =>
      if arrives_first s until
      then after [(N.max from s, Sigint)] (h (N.max from s))
      else resumed until done
  | None => resumed until done
  end.

(** The plan of [save_transcript_on_exit(); os._exit(0)] entered at [u]. *)
Definition flush_plan (b : behaviour) (next : option (N * (N -> plan))) (u : N) : plan :=
  after [(u, Call SaveTranscript)]
    (blocking u (option_map (N.add u) (duration b)) next
       (fun v => ([(v, flush_result b); (v, Exit 0)], Some v))).

(** The plan of the [k]-th run of [signal_handler], entered at [t]. *)
Fixpoint handler_plan (e : env) (k : nat) (sigs : list N) (t : N) {struct sigs} : plan :=
  let next :=
    match sigs with
    | [] => None
    | s :: rest => Some (s, handler_plan e (S k) rest)
    end in
  after [(t, FlagSet); (t, Start (EndThread k)); (t, Call EndSession)]
    (blocking t (Some (t + join_length e k)) next
       (fun u => after [(u, join_back e k)] (flush_plan (flush e (Handler k)) next u))).

(** The plan of [run_session]. *)
Definition session_plan (e : env) (sigs : list N) : plan :=
  let next :=
    match sigs with
    | [] => None
    | s :: rest => Some (s, handler_plan e 0 rest)
    end in
  after [(0, Start WaitThread); (0, Call WaitForSessionEnd)]
    (blocking 0 (duration (wait_for_session_end e)) next
       (fun u => after [(u, Joined WaitThread)] (flush_plan (flush e Normal) next u))).

(** From [p] on, the run that ends in [q] did what [r] says. *)
Definition follows (p q : proc) (r : plan) : Prop :=
  stamped q = stamped p ++ fst r
  /\ status q = match snd r with Some _ => Exited 0 | None => Blocked end
  /\ forall T, snd r = Some T -> now q = T.

(** The handler run that a pending interrupt starts follows its plan. *)
Definition related (next : interrupt) (nextP : option (N * (N -> plan))) : Prop :=
  match next, nextP with
  | None, None => True
  | Some (s, h), Some (s', hP) =>
      s = s' /\ forall p, quiet (pending p) -> follows p (h p) (hP (now p))
  | _, _ => False
  end.

(** The control events of a handler run that starts at [t] and that no
    interrupt cuts short, [f] being the time its transcript write takes. *)
Definition run_log (e : env) (k : nat) (t f : N) : list (N * event) :=
  let u := t + join_length e k in
  [ (t, FlagSet); (t, Start (EndThread k)); (t, Call EndSession);
    (u, join_back e k); (u, Call SaveTranscript);
    (u + f, flush_result (flush e (Handler k))); (u + f, Exit 0) ].

(** What the plan of the [k]-th handler run, started at [t], comes to when
    the interrupts [took] are taken after it and [left] are not. *)
Definition shape (e : env) (k : nat) (t : N) (took left : list N) (r : plan) : Prop :=
  let n := (k + List.length took)%nat in
  let t' := last took t in
  sigints (fst r) = took
  /\ (exists f,
        duration (flush e (Handler n)) = Some f
        /\ snd r = Some (t' + join_length e n + f)
        /\ Forall (fun s' => t' + join_length e n + f <= s') left
        /\ exists l, fst r = l ++ run_log e n t' f /\ occ is_exit (map snd l) = 0%nat)
  /\ (forall i ti, nth_error (t :: took) i = Some ti ->
        In (ti, FlagSet) (fst r) /\ In (ti, Start (EndThread (k + i))) (fst r)
        /\ In (ti, Call EndSession) (fst r))
  /\ occ is_end_session (map snd (fst r)) = S (List.length took)
  /\ (1 <= occ is_flush (map snd (fst r)) <= S (List.length took))%nat.

(** What is shown of the order in a plan that starts with the handler's
    first line, and in one that starts with a flush. *)
Definition ends_in_order (r : plan) : Prop :=
  match snd r with
  | Some _ => exits_after_flush (map snd (fst r))
  | None => occ is_exit (map snd (fst r)) = 0%nat
  end.

Definition orderly (r : plan) : Prop :=
  (forall pre, flush_follows_join pre -> flush_follows_join (pre ++ map snd (fst r)))
  /\ ends_in_order r.

Definition orderly_flush (r : plan) : Prop :=
  (forall pre, flush_follows_join pre -> after_join pre ->
               flush_follows_join (pre ++ map snd (fst r)))
  /\ ends_in_order r.

Definition orderly_next (next : option (N * (N -> plan))) : Prop :=
  forall s h, next = Some (s, h) -> forall v, orderly (h v).

End Shutdown.

(* ================================================================== *)
(** * Audio gate ([EchoCancellationAudioInterface])                     *)
(* ================================================================== *)

Module AudioGate.

Local Open Scope Q_scope.

(** Modelled from the spec: [echo_cancellation_audio.py] is not part of the
    sources, only its setup guide is.  Every definition of this module
    follows sections 3, 4.1 and 4.2 of the spec; the defaults
    ([volume_threshold=0.02], [silence_duration=0.8], two seconds of
    calibration) are those of the setup guide.  Times are in ms. *)

Record AudioFrame := mkFrame { samples : list Z }.

Inductive GateState := Calibrating | Listening | AgentSpeaking | CooldownAfterAgent.

Record config := mkConfig {
  volume_threshold : Q;
  silence_duration : N;
  calibration_duration : N;
  noise_multiplier : Q            (* the spec's fixed multiplier k *)
}.

Definition demo_config (k : Q) : config := mkConfig (2 # 100) 800 2000 k.

Record gate := mkGate {
  cfg : config;
  state : GateState;
  since : N;              (* when [Calibrating] or [CooldownAfterAgent] was entered *)
  energy_sum : Q;         (* calibration: energies seen so far *)
  frames_seen : N;        (* calibration: how many *)
  NoiseFloor : Q;
  calibrations : nat      (* how many calibrations were completed *)
}.

(** Modelled from the spec: a session starts in [Calibrating]. *)
Definition open_session (c : config) (t0 : N) : gate :=
  mkGate c Calibrating t0 0 0 0 0.

(** Modelled from the spec: "threshold = max(configured_volume_threshold,
    k * NoiseFloor)". *)
Definition EffectiveThreshold (g : gate) : Q :=
  Qmax (volume_threshold (cfg g)) (noise_multiplier (cfg g) * NoiseFloor g).

(** Modelled from the spec: the noise floor is the mean of the energies
    observed during the window (nothing observed: 0). *)
Definition mean_energy (g : gate) : Q :=
  if (frames_seen g =? 0)%N then 0
  else energy_sum g / inject_Z (Z.of_N (frames_seen g)).

Definition with_state (s : GateState) (t : N) (g : gate) : gate :=
  mkGate (cfg g) s t (energy_sum g) (frames_seen g) (NoiseFloor g) (calibrations g).

Definition finish_calibration (t : N) (g : gate) : gate :=
  mkGate (cfg g) Listening t (energy_sum g) (frames_seen g) (mean_energy g)
         (S (calibrations g)).

(** Modelled from the spec: the two timed transitions,
    [Calibrating -> Listening] "after the fixed calibration window elapses"
    and [CooldownAfterAgent -> Listening] "after SilenceDuration elapses with
    no further playback restart". *)
Definition settle (t : N) (g : gate) : gate :=
  match state g with
  | Calibrating =>
      if (since g + calibration_duration (cfg g) <=? t)%N
      then finish_calibration t g else g
  | CooldownAfterAgent =>
      if (since g + silence_duration (cfg g) <=? t)%N
      then with_state Listening t g else g
  | _ => g
  end.

Inductive input :=
| Captured (f : AudioFrame)    (* the capture driver delivers a frame *)
| PlaybackStarted              (* the agent begins emitting playback audio *)
| PlaybackStopped              (* playback audio ends *)
| Tick.                        (* time passes *)

Section Estimator.

(** Modelled from the spec: the energy of a frame is "a pure function of the
    frame" ("e.g., root-mean-square"). *)
Variable energy : AudioFrame -> Q.

(** Modelled from the spec: outside calibration the estimator "returns
    [energy > EffectiveThreshold]". *)
Definition is_speech (g : gate) (f : AudioFrame) : bool :=
  negb (Qle_bool (energy f) (EffectiveThreshold g)).

Definition accumulate (f : AudioFrame) (g : gate) : gate :=
  mkGate (cfg g) (state g) (since g) (energy_sum g + energy f)
         (frames_seen g + 1) (NoiseFloor g) (calibrations g).

(** Modelled from the spec: one input at time [t]; the result is the new
    gate and the frames handed to the transport. *)
Definition step (t : N) (i : input) (g : gate) : gate * list AudioFrame :=
  let g := settle t g in
  match i with
  | Captured f =>
      match state g with
      | Calibrating => (accumulate f g, [])
      | Listening => (g, if is_speech g f then [f] else [])
      | AgentSpeaking | CooldownAfterAgent => (g, [])
      end
  | PlaybackStarted =>
      match state g with
      | Calibrating => (g, [])
      | _ => (with_state AgentSpeaking t g, [])
      end
  | PlaybackStopped =>
      match state g with
      | AgentSpeaking => (with_state CooldownAfterAgent t g, [])
      | _ => (g, [])
      end
  | Tick => (g, [])
  end.

Fixpoint run (ins : list (N * input)) (g : gate) : gate * list AudioFrame :=
  match ins with
  | [] => (g, [])
  | (t, i) :: rest =>
      let (g1, out1) := step t i g in
      let (g2, out2) := run rest g1 in
      (g2, out1 ++ out2)
  end.

End Estimator.

(** Modelled from the spec: the frames the estimator observes "for a fixed
    wall-clock window": those captured before the first input that comes at
    or after the end of the window. *)
Fixpoint heard (window_end : N) (ins : list (N * input)) : list AudioFrame :=
  match ins with
  | [] => []
  | (t, i) :: rest =>
      if (t <? window_end)%N
      then match i with
           | Captured f => f :: heard window_end rest
           | _ => heard window_end rest
           end
      else []
  end.

(** Modelled from the spec: "an aggregate (e.g. mean) of observed energies". *)
Definition mean_of (es : list Q) : Q :=
  match es with
  | [] => 0
  | _ => fold_left Qplus es 0 / inject_Z (Z.of_nat (List.length es))
  end.

(** The gate after it accumulated the frames [fs]. *)
Definition after_hearing (energy : AudioFrame -> Q) (fs : list AudioFrame)
    (g : gate) : gate :=
  fold_left (fun g f => accumulate energy f g) fs g.

(** An estimator to run the gate with: the mean of the squared samples. *)
Definition mean_square (f : AudioFrame) : Q :=
  match samples f with
  | [] => 0
  | _ => inject_Z (fold_right (fun s a => (s * s + a)%Z) 0%Z (samples f))
         / inject_Z (Z.of_nat (List.length (samples f)))
  end.

(** What holds of a gate all along a session opened with [c] at [t0]. *)
Definition calibrated_once (c : config) (t0 : N) (g : gate) : Prop :=
  cfg g = c
  /\ 0 <= energy_sum g
  /\ 0 <= NoiseFloor g
  /\ (state g = Calibrating /\ since g = t0 /\ calibrations g = 0%nat
      \/ state g <> Calibrating /\ calibrations g = 1%nat).

End AudioGate.

(* ================================================================== *)
(** * Dashboard: [handleViewTranscript] (ControlTower.tsx)              *)
(* ================================================================== *)

Module ControlTower.

Local Open Scope string_scope.

(** A value of type [string | null]. *)
Definition nullable := option string.

(** JavaScript truthiness at [string | null]: [null] and [""] are falsy. *)
Definition truthy (v : nullable) : bool :=
  match v with
  | Some s => negb (s =? "")
  | None => false
  end.

(** [a || b] *)
Definition js_or (a b : nullable) : nullable := if truthy a then a else b.

Record TranscriptDialog := mkDialog {
  open : bool;
  content : string;
  supplierName : option string
}.

Inductive effect :=
| Toast (title description variant : string)
| ConsoleError (label error : string)
| GetTranscriptByTaskId (taskId : string)
| GetTranscriptByConversationId (conversationId : string).

(** The component: its two pieces of React state the handler writes, and
    what the handler did to the outside. *)
Record component := mkComponent {
  transcriptDialog : TranscriptDialog;
  loadingTranscript : nullable;
  effects : list effect
}.

Definition mounted : component :=
  mkComponent (mkDialog false "" None) None [].

(** The outcome of an awaited [agentApi] request; [formatted_text] of a
    fulfilled one may be missing. *)
Inductive settled :=
| Fulfilled (formatted_text : nullable)
| Rejected (error : string).

Record agentApi := mkApi {
  getTranscriptByTaskId : string -> settled;
  getTranscriptByConversationId : string -> settled
}.

Definition perform (e : effect) (c : component) : component :=
  mkComponent (transcriptDialog c) (loadingTranscript c) (effects c ++ [e])%list.

Definition setLoadingTranscript (v : nullable) (c : component) : component :=
  mkComponent (transcriptDialog c) v (effects c).

Definition setTranscriptDialog (d : TranscriptDialog) (c : component) : component :=
  mkComponent d (loadingTranscript c) (effects c).

Definition toast (title description variant : string) : component -> component :=
  perform (Toast title description variant).

(** [v!] and the use of [v] as a string. *)
Definition unwrap (v : nullable) : string :=
  match v with
  | Some s => s
  | None => ""
  end.

(** [handleViewTranscript(taskId, conversationId, supplier)], lines 94-125. *)
Definition handleViewTranscript (api : agentApi)
    (taskId conversationId : nullable) (supplier : string)
    (c : component) : component :=
  if negb (truthy taskId) && negb (truthy conversationId) then
    toast "Error" "No transcript available for this activity" "destructive" c
  else
    let c1 := setLoadingTranscript (js_or (js_or taskId conversationId) (Some "")) c in
    let awaited :=
      if truthy taskId
      then (getTranscriptByTaskId api (unwrap taskId),
            perform (GetTranscriptByTaskId (unwrap taskId)) c1)
      else (getTranscriptByConversationId api (unwrap conversationId),
            perform (GetTranscriptByConversationId (unwrap conversationId)) c1) in
    let c3 :=
      match fst awaited with
      | Fulfilled formatted_text =>
          setTranscriptDialog
            (mkDialog true
               (unwrap (js_or formatted_text (Some "No transcript content available")))
               (Some supplier))
            (snd awaited)
      | Rejected error =>
          toast "Error" "Failed to load transcript" "destructive"
            (perform (ConsoleError "Error fetching transcript:" error) (snd awaited))
      end in
    setLoadingTranscript None c3.

Definition is_request (e : effect) : bool :=
  match e with
  | GetTranscriptByTaskId _ | GetTranscriptByConversationId _ => true
  | _ => false
  end.

(** The requests a run of the handler adds to what [c] had done. *)
Definition requests (c : component) : list effect := filter is_request (effects c).

(** The claim on the viewer, word for word: [null] decides. *)
Definition null_decides : Prop :=
  forall (api : agentApi) (taskId conversationId : nullable)
         (supplier : string) (c : component),
    let c' := handleViewTranscript api taskId conversationId supplier c in
    (taskId = None -> conversationId = None ->
       c' = toast "Error" "No transcript available for this activity" "destructive" c)
    /\ (taskId <> None ->
       requests c' = (requests c ++ [GetTranscriptByTaskId (unwrap taskId)])%list)
    /\ (taskId = None -> conversationId <> None ->
       requests c' = (requests c ++ [GetTranscriptByConversationId (unwrap conversationId)])%list).

(** An API for examples: the task has no transcript, the conversation has. *)
Definition demo_api : agentApi :=
  mkApi (fun _ => Rejected "404") (fun _ => Fulfilled (Some "Agent: Bonjour")).

End ControlTower.

(* ================================================================== *)
(** * Dashboard: the other functions of ControlTower.tsx                *)
(* ================================================================== *)

Module Dashboard.

Import ControlTower.
Local Open Scope string_scope.
Local Open Scope Z_scope.

(** [`${n}`] for an integer [n]. *)
Definition show (n : Z) : string := NilZero.string_of_int (Z.to_int n).

(** A JavaScript number that holds an integer, or [NaN] ([None]). *)
Definition number := option Z.

(** The double nearest to an integer of magnitude below 2^54, ties to even:
    up to 2^53 every integer is a double; above, the doubles are the even
    integers and an odd one lies half-way between two of them, of which the
    multiple of 4 has the even significand. *)
Definition to_double (x : Z) : Z :=
  if Z.abs x <=? 2 ^ 53 then x
  else if Z.even x then x
  else if x mod 4 =? 1 then x - 1 else x + 1.

(** [new Date(dateString).getTime()], [parsed] being what the string parses
    to: the time value in ms when there is one and it lies within
    8.64e15 ms of the epoch, [NaN] otherwise. *)
Definition getTime (parsed : option Z) : number :=
  match parsed with
  | Some t => if Z.abs t <=? 8640000000000000 then Some t else None
  | None => None
  end.

(** [a - b] on two such numbers. *)
Definition minus (a b : number) : number :=
  match a, b with
  | Some x, Some y => Some (to_double (x - y))
  | _, _ => None
  end.

(** [Math.floor(a / c)] for [c] one of 60000, 3600000, 86400000.  The
    quotient of a double of magnitude below 2^54 by [c] is rounded by less
    than its distance to the next integer, so the floor is that of the
    exact quotient. *)
Definition floor_div (a : number) (c : Z) : number := option_map (fun x => x / c) a.

(** [a < n] and [a > n]: false on [NaN]. *)
Definition less (a : number) (n : Z) : bool :=
  match a with Some x => x <? n | None => false end.

Definition greater (a : number) (n : Z) : bool :=
  match a with Some x => n <? x | None => false end.

(** [`${a}`] *)
Definition template (a : number) : string :=
  match a with Some x => show x | None => "NaN" end.

(** [getTimeAgo(dateString)], lines 383-395; [now] is the time value of
    [new Date()], an integer of magnitude at most 8.64e15.
<<
    const date = new Date(dateString);
    const now = new Date();
    const diffMs = now.getTime() - date.getTime();
    const diffMins = Math.floor(diffMs / 60000);
    const diffHours = Math.floor(diffMs / 3600000);
    const diffDays = Math.floor(diffMs / 86400000);
    if (diffMins < 1) return "Just now";
    if (diffMins < 60) return `${diffMins} min ago`;
    if (diffHours < 24) return `${diffHours} hour${diffHours > 1 ? "s" : ""} ago`;
    return `${diffDays} day${diffDays > 1 ? "s" : ""} ago`;
>> *)
Definition getTimeAgo (now : Z) (parsed : option Z) : string :=
  let date := getTime parsed in
  let diffMs := minus (Some now) date in
  let diffMins := floor_div diffMs 60000 in
  let diffHours := floor_div diffMs 3600000 in
  let diffDays := floor_div diffMs 86400000 in
  if less diffMins 1 then "Just now"
  else if less diffMins 60 then template diffMins ++ " min ago"
  else if less diffHours 24
       then template diffHours ++ " hour" ++ (if greater diffHours 1 then "s" else "")
            ++ " ago"
  else template diffDays ++ " day" ++ (if greater diffDays 1 then "s" else "") ++ " ago".

(** The two fields of an [AgentActivityItem] that decide how its card looks. *)
Record activity := mkActivity {
  task_type : string;
  status : string
}.

Inductive icon := AlertTriangle | DollarSign | Package | Phone.

Record TaskTypeConfig := mkTaskTypeConfig {
  borderColor : string;
  bgColor : string;
  iconColor : string;
  iconBg : string;
  taskIcon : icon;
  title : string;
  shortTitle : string
}.

(** [getTaskTypeConfig()], lines 266-310: a [switch] on [activity.task_type]
    whose [default] shares the body of ["supplier_followup"]. *)
Definition getTaskTypeConfig (a : activity) : TaskTypeConfig :=
  if (task_type a =? "delivery_risk")%string then
    mkTaskTypeConfig "border-l-critical" "bg-critical/5" "text-critical"
      "bg-critical/10" AlertTriangle "Delivery Risk Check" "Delivery"
  else if (task_type a =? "price_update")%string then
    mkTaskTypeConfig "border-l-low" "bg-low/5" "text-low"
      "bg-low/10" DollarSign "Price Update" "Pricing"
  else if (task_type a =? "product_discovery")%string then
    mkTaskTypeConfig "border-l-primary" "bg-primary/5" "text-primary"
      "bg-primary/10" Package "Product Discovery" "Discovery"
  else
    mkTaskTypeConfig "border-l-moderate" "bg-moderate/5" "text-moderate"
      "bg-moderate/10" Phone
      (if (status a =? "failed")%string
       then "Supplier Not Responding" else "Supplier Follow-up")
      "Follow-up".

(** [getTaskTitle()], lines 368-381. *)
Definition getTaskTitle (a : activity) : string :=
  if (task_type a =? "delivery_risk")%string then
    if (status a =? "completed")%string
    then "Delivery Risk Resolved" else "Unrisking Late Delivery"
  else if (task_type a =? "price_update")%string then
    if (status a =? "completed")%string then "Price Update Complete" else "Price Update"
  else if (task_type a =? "product_discovery")%string then
    if (status a =? "completed")%string
    then "New Product Match Found" else "Product Discovery"
  else if (task_type a =? "supplier_followup")%string then
    if (status a =? "failed")%string
    then "Supplier Not Responding" else "Supplier Follow-up"
  else "Agent Activity".

(** What [getStatusIcon()] renders, by the class names that tell the
    elements apart: the pulsing dot with its background class, or an icon
    with its [className]. *)
Inductive status_icon :=
| PulseDot (background : string)
| CheckCircle2 (className : string)
| AlertCircle (className : string).

(** [getStatusIcon()], lines 315-336; [null] is [None]. *)
Definition getStatusIcon (a : activity) (taskConfig : TaskTypeConfig)
    : option status_icon :=
  if ((status a =? "running") || (status a =? "pending"))%string then
    let bgColor :=
      if (iconColor taskConfig =? "text-critical")%string then "bg-critical"
      else if (iconColor taskConfig =? "text-low")%string then "bg-low"
      else if (iconColor taskConfig =? "text-primary")%string then "bg-primary"
      else if (iconColor taskConfig =? "text-moderate")%string then "bg-moderate"
      else "bg-low" in
    Some (PulseDot bgColor)
  else if (status a =? "completed")%string then
    Some (CheckCircle2 ("h-5 w-5 " ++ iconColor taskConfig))
  else if (status a =? "failed")%string then
    Some (AlertCircle "h-5 w-5 text-critical")
  else None.

Record badge := mkBadge {
  badgeClass : string;
  label : string
}.

(** [getStatusBadge()], lines 338-366; [null] is [None]. *)
Definition getStatusBadge (a : activity) (taskConfig : TaskTypeConfig)
    : option badge :=
  if ((status a =? "running") || (status a =? "pending"))%string then
    let border :=
      if (iconColor taskConfig =? "text-critical")%string then "border-critical/20"
      else if (iconColor taskConfig =? "text-low")%string then "border-low/20"
      else if (iconColor taskConfig =? "text-primary")%string then "border-primary/20"
      else if (iconColor taskConfig =? "text-moderate")%string then "border-moderate/20"
      else "border-low/20" in
    Some (mkBadge (bgColor taskConfig ++ " " ++ iconColor taskConfig ++ " " ++ border)
                  (if (status a =? "running")%string then "In Progress" else "Pending"))
  else if (status a =? "completed")%string then
    Some (mkBadge "bg-green-500/10 text-green-500 border-green-500/20" "Completed")
  else if (status a =? "failed")%string then
    Some (mkBadge "bg-critical/10 text-critical border-critical/20" "Action Required")
  else None.

(** What a handler does to the outside. *)
Inductive action :=
| Notify (title description : string) (variant : option string)
| LogError (label error : string)
| StartConversation (supplier_name agent_name : string)
| GetActivitySummary (limit : Z)
| GetActivityRecap (limit : Z).

(** The outcome of an awaited request. *)
Inductive outcome (A : Type) :=
| Resolved (v : A)
| Failed (error : string).

Arguments Resolved {A} v.
Arguments Failed {A} error.

(** [handleRecall(supplier, agentName?)], lines 135-153; a missing
    [agentName] is [None]. *)
Definition handleRecall (startConversation : string -> string -> outcome unit)
    (supplier : string) (agentName : nullable) : list action :=
  let agent_name := unwrap (js_or agentName (Some "products")) in
  StartConversation supplier agent_name ::
  match startConversation supplier agent_name with
  | Resolved _ =>
      [Notify "Re-calling Supplier" ("Agent is calling " ++ supplier ++ " again...") None]
  | Failed error =>
      [LogError "Error starting conversation:" error;
       Notify "Error" "Failed to start conversation" (Some "destructive")]
  end.

Record AgentActivitySummary := mkSummary {
  delivery_risks_resolved : Z;
  supplier_followups_sent : Z;
  price_checks_completed : Z;
  new_product_matches : Z
}.

(** The state [fetchData] writes. *)
Record board := mkBoard {
  summary : option AgentActivitySummary;
  activities : list activity;
  loading : bool
}.

(** The component as it mounts (lines 17-19). *)
Definition mounting : board := mkBoard None [] true.

(** [fetchData()], lines 24-44.  Both requests are made before either is
    awaited; [Promise.all] rejects with the rejection that comes first,
    [recap_first] telling which when both requests fail.  The recap is
    given by its [activities].
<<
    try {
      setLoading(true);
      const limit = 10;
      const [summaryData, recapData] = await Promise.all([
        agentApi.getActivitySummary(limit),
        agentApi.getActivityRecap(limit),
      ]);
      setSummary(summaryData);
      setActivities(recapData.activities);
    } catch (error) {
      console.error("Error fetching agent data:", error);
      toast({ title: "Error", description: "Failed to load agent activity data",
              variant: "destructive" });
    } finally {
      setLoading(false);
    }
>> *)
Definition fetchData
    (getActivitySummary : Z -> outcome AgentActivitySummary)
    (getActivityRecap : Z -> outcome (list activity))
    (recap_first : bool) (b : board) : board * list action :=
  let limit := 10 in
  let requests := [GetActivitySummary limit; GetActivityRecap limit] in
  let failed error :=
    (mkBoard (summary b) (activities b) false,
     requests ++ [LogError "Error fetching agent data:" error;
                  Notify "Error" "Failed to load agent activity data"
                         (Some "destructive")])%list in
  match getActivitySummary limit, getActivityRecap limit with
  | Resolved summaryData, Resolved recap =>
      (mkBoard (Some summaryData) recap false, requests)
  | Failed error, Resolved _ => failed error
  | Resolved _, Failed error => failed error
  | Failed e1, Failed e2 => failed (if recap_first then e2 else e1)
  end.

End Dashboard.

(* ================================================================== *)
(** * The guide's excerpts at work                                      *)
(* ================================================================== *)

Module Session.

Import PyStr Supervisor.
Local Open Scope N_scope.
Local Open Scope list_scope.

(** The SDK calls [on_agent_response] once for every agent utterance, in
    the order of the conversation. *)
Definition agent_says (responses : list str) (p : proc) : proc :=
  fold_left (fun q response => on_agent_response response q) responses p.

End Session.

(* ================================================================== *)
(** * Properties                                                        *)
(* ================================================================== *)

Module PyStrFacts.

Import PyStr.
Local Open Scope N_scope.
Local Open Scope list_scope.

Lemma starts_with_spec (k s : str) :
  starts_with k s = true <-> exists post, s = k ++ post.
Proof.
  revert s; induction k as [|a k IH]; intros s; simpl.
  - split; [intros _; now exists s | reflexivity].
  - destruct s as [|b s].
    + split; [discriminate | intros [post H]; discriminate].
    + rewrite andb_true_iff, N.eqb_eq, IH. split.
      * intros [-> [post ->]]. now exists post.
      * intros [post H]. injection H as -> ->. split; [reflexivity | now exists post].
Qed.

Lemma contains_spec (k s : str) :
  contains k s = true <-> substring k s.
Proof.
  unfold substring. induction s as [|b s IH].
  - simpl. rewrite orb_false_r, starts_with_spec. split.
    + intros [post H]. now exists [], post.
    + intros [pre [post H]]. destruct pre as [|x pre]; [now exists post | discriminate].
  - cbn [contains]. rewrite orb_true_iff, starts_with_spec, IH. split.
    + intros [[post H] | [pre [post H]]].
      * now exists [], post.
      * exists (b :: pre), post. now rewrite H.
    + intros [pre [post H]]. destruct pre as [|x pre].
      * left. now exists post.
      * right. injection H as _ H. now exists pre, post.
Qed.

End PyStrFacts.

(* ------------------------------------------------------------------ *)
(** ** Dashboard                                                        *)
(* ------------------------------------------------------------------ *)

Module ControlTowerFacts.

Import ControlTower.
Local Open Scope string_scope.
Local Open Scope list_scope.

Lemma requests_perform (e : effect) (c : component) :
  requests (perform e c) = requests c ++ (if is_request e then [e] else []).
Proof.
  unfold requests, perform; cbn [effects].
  rewrite filter_app. cbn [filter]. now destruct (is_request e).
Qed.

Lemma requests_setLoadingTranscript (v : nullable) (c : component) :
  requests (setLoadingTranscript v c) = requests c.
Proof. reflexivity. Qed.

Lemma requests_setTranscriptDialog (d : TranscriptDialog) (c : component) :
  requests (setTranscriptDialog d c) = requests c.
Proof. reflexivity. Qed.

Lemma requests_of_fetch (api : agentApi) (taskId conversationId : nullable)
    (supplier : string) (c : component) :
  truthy taskId || truthy conversationId = true ->
  requests (handleViewTranscript api taskId conversationId supplier c) =
  requests c ++
    [if truthy taskId then GetTranscriptByTaskId (unwrap taskId)
     else GetTranscriptByConversationId (unwrap conversationId)].
Proof.
  intros H. unfold handleViewTranscript.
  replace (negb (truthy taskId) && negb (truthy conversationId)) with false
    by (destruct (truthy taskId), (truthy conversationId); try reflexivity; discriminate).
  rewrite requests_setLoadingTranscript.
  destruct (truthy taskId); cbn [fst snd].
  - destruct (getTranscriptByTaskId api (unwrap taskId)); unfold toast;
      rewrite ?requests_setTranscriptDialog, ?requests_perform,
              requests_setLoadingTranscript;
      cbn [is_request]; now rewrite ?app_nil_r.
  - destruct (getTranscriptByConversationId api (unwrap conversationId)); unfold toast;
      rewrite ?requests_setTranscriptDialog, ?requests_perform,
              requests_setLoadingTranscript;
      cbn [is_request]; now rewrite ?app_nil_r.
Qed.

(** C10, as stated, fails: with [taskId = ""] (not [null], but falsy) and a
    conversation id, the handler fetches by conversation id, not by task id. *)
Lemma empty_taskId_fetches_by_conversation :
  requests (handleViewTranscript demo_api (Some "") (Some "conv_1") "Acme" mounted)
    = [GetTranscriptByConversationId "conv_1"]
  /\ ~ null_decides.
Proof.
  split; [reflexivity |].
  intros H.
  destruct (H demo_api (Some "") (Some "conv_1") "Acme" mounted) as [_ [Htask _]].
  specialize (Htask ltac:(discriminate)).
  vm_compute in Htask. discriminate.
Qed.

(** C10, amended: truthiness decides, not [null].  With [taskId] and
    [conversationId] both falsy ([null] or the empty string) the handler only
    shows the 'No transcript available' toast: no request, no change to the
    dialog or to the loading marker.  With a non-empty [taskId] it requests
    the transcript by task id, and with a falsy [taskId] and a non-empty
    [conversationId] by conversation id; it makes that one request only. *)
Theorem handleViewTranscript_by_truthiness (api : agentApi)
    (taskId conversationId : nullable) (supplier : string) (c : component) :
  let c' := handleViewTranscript api taskId conversationId supplier c in
  match truthy taskId, truthy conversationId with
  | false, false =>
      c' = toast "Error" "No transcript available for this activity" "destructive" c
      /\ requests c' = requests c
      /\ transcriptDialog c' = transcriptDialog c
      /\ loadingTranscript c' = loadingTranscript c
  | true, _ =>
      requests c' = requests c ++ [GetTranscriptByTaskId (unwrap taskId)]
  | false, true =>
      requests c' = requests c ++ [GetTranscriptByConversationId (unwrap conversationId)]
  end.
Proof.
  intros c'. subst c'.
  destruct (truthy taskId) eqn:Ht; [| destruct (truthy conversationId) eqn:Hc].
  - rewrite requests_of_fetch by (now rewrite Ht). now rewrite Ht.
  - rewrite requests_of_fetch by (now rewrite Ht, Hc). now rewrite Ht.
  - unfold handleViewTranscript. rewrite Ht, Hc. cbn [negb andb].
    unfold toast. rewrite requests_perform. cbn [is_request].
    now rewrite app_nil_r.
Qed.

End ControlTowerFacts.

(* ------------------------------------------------------------------ *)
(** ** Closing-keyword detector                                         *)
(* ------------------------------------------------------------------ *)

Module DetectorFacts.

Import PyStr PyStrFacts Supervisor.
Local Open Scope N_scope.
Local Open Scope list_scope.

(** The keywords of the list are written in lower case already, so
    lowering the response alone compares without case. *)
Lemma end_keywords_lowercase (k : str) :
  In k end_keywords -> lower k = k.
Proof.
  cbn [end_keywords In].
  intros [<- | [<- | [<- | [<- | [<- | []]]]]]; vm_compute; reflexivity.
Qed.

Lemma agent_is_ending_iff (response : str) :
  agent_is_ending response = true <->
  exists k, In k end_keywords /\ ci_substring k response.
Proof.
  unfold agent_is_ending, ci_substring. rewrite existsb_exists.
  split; intros [k [Hin H]]; exists k; (split; [exact Hin |]).
  - rewrite (end_keywords_lowercase k Hin). now apply contains_spec.
  - apply contains_spec. now rewrite <- (end_keywords_lowercase k Hin).
Qed.

Example au_revoir_detected :
  agent_is_ending (lit "Au revoir et merci de votre temps.") = true.
Proof. reflexivity. Qed.

Example bonne_journee_detected :
  agent_is_ending (lit "Je vais raccrocher. BONNE JOURN" ++ [201] ++ lit "E !") = true.
Proof. reflexivity. Qed.

Example small_talk_not_detected :
  agent_is_ending (lit "Quel est votre prix pour ce produit ?") = false.
Proof. reflexivity. Qed.

(** C7: the detector fires exactly when one of the closing phrases is a
    case-insensitive substring of the utterance ("Au Revoir" included), and
    firing only prints the [INFO] line: next to the turn that
    [capture_message] records for every utterance, nothing of the process
    changes, so the session is not ended by it. *)
Theorem closing_keyword_is_informational (response : str) (p : proc) :
  let q := on_agent_response response p in
  (agent_is_ending response = true <->
     exists k, In k end_keywords /\ ci_substring k response)
  /\ agent_is_ending (lit "Merci beaucoup, Au Revoir !") = true
  /\ trace q = trace p ++
       (if agent_is_ending response
        then [(now p, Print (10 :: lit "[INFO] Agent is ending the conversation..."))]
        else [])
  /\ transcript q = transcript p ++ [(lit "agent", response)]
  /\ status q = status p
  /\ shutdown_flag q = shutdown_flag p
  /\ supervisor_state q = supervisor_state p
  /\ conversation_id q = conversation_id p
  /\ threads q = threads p
  /\ pending q = pending p
  /\ now q = now p.
Proof.
  intros q. subst q. split; [apply agent_is_ending_iff |].
  split; [reflexivity |].
  unfold on_agent_response, supervisor_state.
  destruct (agent_is_ending response); cbn;
    rewrite ?app_nil_r; repeat split; reflexivity.
Qed.

End DetectorFacts.

(* ------------------------------------------------------------------ *)
(** ** Session supervisor                                               *)
(* ------------------------------------------------------------------ *)

Module SupervisorFacts.

Import PyStr Supervisor.
Local Open Scope N_scope.
Local Open Scope list_scope.

(** *** What each step does to each part of the process *)

Section Steps.

Variables (e : event) (t : N) (c : Z) (th : thread) (r : thread_run) (p : proc).

Lemma now_emit : now (emit e p) = now p.
Proof. reflexivity. Qed.

Lemma threads_emit : threads (emit e p) = threads p.
Proof. reflexivity. Qed.

Lemma trace_emit : trace (emit e p) = trace p ++ [(now p, e)].
Proof. reflexivity. Qed.

Lemma pending_emit : pending (emit e p) = pending p.
Proof. reflexivity. Qed.

Lemma status_emit : status (emit e p) = status p.
Proof. reflexivity. Qed.

Lemma now_set_shutdown_flag : now (set_shutdown_flag p) = now p.
Proof. reflexivity. Qed.

Lemma threads_set_shutdown_flag : threads (set_shutdown_flag p) = threads p.
Proof. reflexivity. Qed.

Lemma trace_set_shutdown_flag :
  trace (set_shutdown_flag p) = trace p ++ [(now p, FlagSet)].
Proof. reflexivity. Qed.

Lemma pending_set_shutdown_flag : pending (set_shutdown_flag p) = pending p.
Proof. reflexivity. Qed.

Lemma status_set_shutdown_flag : status (set_shutdown_flag p) = status p.
Proof. reflexivity. Qed.

Lemma now_advance : now (advance t p) = N.max (now p) t.
Proof. reflexivity. Qed.

Lemma threads_advance : threads (advance t p) = threads p.
Proof. reflexivity. Qed.

Lemma trace_advance :
  trace (advance t p) = trace p ++ filter (fun te => fst te <=? t) (pending p).
Proof. reflexivity. Qed.

Lemma pending_advance :
  pending (advance t p) = filter (fun te => negb (fst te <=? t)) (pending p).
Proof. reflexivity. Qed.

Lemma status_advance : status (advance t p) = status p.
Proof. reflexivity. Qed.

Lemma now_os_exit : now (os_exit c p) = now p.
Proof. reflexivity. Qed.

Lemma trace_os_exit : trace (os_exit c p) = trace p ++ [(now p, Exit c)].
Proof. reflexivity. Qed.

Lemma status_os_exit : status (os_exit c p) = Exited c.
Proof. reflexivity. Qed.

Lemma trace_block_forever : trace (block_forever p) = trace p ++ pending p.
Proof. reflexivity. Qed.

Lemma status_block_forever : status (block_forever p) = Blocked.
Proof. reflexivity. Qed.

End Steps.

Lemma emit_all (l : list event) (p : proc) :
  let q := fold_left (fun q e => emit e q) l p in
  now q = now p /\ threads q = threads p /\ pending q = pending p /\
  status q = status p /\ trace q = trace p ++ map (pair (now p)) l.
Proof.
  revert p; induction l as [|x l IH]; intros p; cbn [fold_left map].
  - now rewrite app_nil_r.
  - destruct (IH (emit x p)) as (Hn & Ht & Hp & Hs & Htr).
    cbn zeta in *. rewrite Hn, Ht, Hp, Hs, Htr. cbn [emit now threads pending status trace].
    rewrite <- app_assoc. auto.
Qed.

Section Spawn.

Variables (th : thread) (r : thread_run) (p : proc).

Lemma now_spawn : now (spawn th r p) = now p.
Proof. unfold spawn; cbn [now]. apply (emit_all (Start th :: at_start r) p). Qed.

Lemma status_spawn : status (spawn th r p) = status p.
Proof. unfold spawn; cbn [status]. apply (emit_all (Start th :: at_start r) p). Qed.

Lemma threads_spawn :
  threads (spawn th r p) = (th, option_map (N.add (now p)) (finish r)) :: threads p.
Proof.
  unfold spawn; cbn [threads].
  destruct (emit_all (Start th :: at_start r) p) as (-> & -> & _). reflexivity.
Qed.

Lemma trace_spawn :
  trace (spawn th r p) = trace p ++ map (pair (now p)) (Start th :: at_start r).
Proof. unfold spawn; cbn [trace]. apply (emit_all (Start th :: at_start r) p). Qed.

Lemma pending_spawn :
  pending (spawn th r p) =
  match finish r with
  | Some d => fold_left (fun q x => schedule (now p + d, x) q) (at_finish r) (pending p)
  | None => pending p
  end.
Proof.
  unfold spawn; cbn [pending].
  destruct (emit_all (Start th :: at_start r) p) as (-> & _ & -> & _).
  now destruct (finish r).
Qed.

End Spawn.

Create Rewrite HintDb fields.

#[local] Hint Rewrite now_emit threads_emit status_emit
  now_set_shutdown_flag threads_set_shutdown_flag status_set_shutdown_flag
  now_advance threads_advance status_advance
  now_os_exit status_os_exit status_block_forever
  now_spawn status_spawn threads_spawn : fields.

(** *** Control events *)

Lemma quiet_filter (f : N * event -> bool) (l : list (N * event)) :
  quiet l -> quiet (filter f l).
Proof.
  unfold quiet. rewrite !Forall_forall. intros H x Hx.
  apply filter_In in Hx. now apply H.
Qed.

Lemma quiet_schedule (te : N * event) (l : list (N * event)) :
  milestone (snd te) = false -> quiet l -> quiet (schedule te l).
Proof.
  intros Hte. induction 1 as [|x l Hx Hl IH]; cbn [schedule].
  - repeat constructor. exact Hte.
  - destruct (fst x <=? fst te); repeat (constructor; auto).
Qed.

Lemma quiet_schedule_all (t : N) (evs : list event) (l : list (N * event)) :
  Forall (fun x => milestone x = false) evs -> quiet l ->
  quiet (fold_left (fun q x => schedule (t, x) q) evs l).
Proof.
  intros H; revert l. induction H as [|x evs Hx _ IH]; intros l Hl; cbn [fold_left].
  - exact Hl.
  - apply IH. now apply quiet_schedule.
Qed.

Lemma no_milestone_in_quiet (l : list (N * event)) :
  quiet l -> filter milestone (map snd l) = [].
Proof.
  induction 1 as [|x l Hx _ IH]; cbn [map filter]; [reflexivity |].
  now rewrite Hx.
Qed.

Lemma force_end_tame (e : env) (k : nat) : tame (force_end e k).
Proof.
  unfold tame, force_end. destruct (end_session e k); cbn; repeat constructor.
Qed.

Lemma wait_with_timeout_tame (e : env) : tame (wait_with_timeout e).
Proof.
  unfold tame, wait_with_timeout. destruct (wait_for_session_end e); cbn; repeat constructor.
Qed.

Section Milestones.

Variables (e : event) (t : N) (c : Z) (th : thread) (r : thread_run) (p : proc).

Lemma milestones_emit :
  milestones (emit e p) = milestones p ++ (if milestone e then [e] else []).
Proof.
  unfold milestones, events. rewrite trace_emit, map_app, filter_app.
  cbn [map filter snd]. now destruct (milestone e).
Qed.

Lemma milestones_set_shutdown_flag :
  milestones (set_shutdown_flag p) = milestones p ++ [FlagSet].
Proof.
  unfold milestones, events. rewrite trace_set_shutdown_flag, map_app, filter_app.
  reflexivity.
Qed.

Lemma milestones_os_exit : milestones (os_exit c p) = milestones p ++ [Exit c].
Proof.
  unfold milestones, events. rewrite trace_os_exit, map_app, filter_app.
  reflexivity.
Qed.

Lemma milestones_spawn :
  milestones (spawn th r p) = milestones p ++ Start th :: filter milestone (at_start r).
Proof.
  unfold milestones, events. rewrite trace_spawn, map_app, filter_app, map_map.
  cbn [snd]. now rewrite map_id.
Qed.

Hypothesis Hp : quiet (pending p).

Lemma milestones_advance : milestones (advance t p) = milestones p.
Proof.
  unfold milestones, events. rewrite trace_advance, map_app, filter_app.
  rewrite (no_milestone_in_quiet _ (quiet_filter _ _ Hp)). apply app_nil_r.
Qed.

Lemma milestones_block_forever : milestones (block_forever p) = milestones p.
Proof.
  unfold milestones, events. rewrite trace_block_forever, map_app, filter_app.
  rewrite (no_milestone_in_quiet _ Hp). apply app_nil_r.
Qed.

Lemma quiet_emit : quiet (pending (emit e p)).
Proof. exact Hp. Qed.

Lemma quiet_set_shutdown_flag : quiet (pending (set_shutdown_flag p)).
Proof. exact Hp. Qed.

Lemma quiet_advance : quiet (pending (advance t p)).
Proof. rewrite pending_advance. now apply quiet_filter. Qed.

Lemma quiet_spawn : tame r -> quiet (pending (spawn th r p)).
Proof.
  intros Hr. rewrite pending_spawn. destruct (finish r); [| exact Hp].
  now apply quiet_schedule_all.
Qed.

End Milestones.

Lemma quiet_boot : quiet (pending boot).
Proof. constructor. Qed.

Create HintDb quiet.

#[local] Hint Extern 1 (tame _) => unfold tame; cbn; repeat constructor : quiet.

#[local] Hint Resolve quiet_boot quiet_emit quiet_set_shutdown_flag quiet_advance
  quiet_spawn force_end_tame wait_with_timeout_tame : quiet.

Lemma within_is_exit : within is_exit.
Proof. now intros []. Qed.

Lemma within_is_flush : within is_flush.
Proof. now intros [| | | |[]| | | | | |]. Qed.

Lemma within_is_end_session : within is_end_session.
Proof. now intros [| | | |[]| | | | | |]. Qed.

Lemma within_is_join_back : within is_join_back.
Proof. now intros []. Qed.

Lemma within_is_sigint : within is_sigint.
Proof. now intros []. Qed.

#[local] Hint Resolve within_is_exit within_is_flush within_is_end_session
  within_is_join_back within_is_sigint : quiet.

Lemma filter_within (f : event -> bool) (l : list event) :
  within f -> filter f (filter milestone l) = filter f l.
Proof.
  intros Hf. induction l as [|x l IH]; cbn [filter]; [reflexivity |].
  destruct (milestone x) eqn:Hm; cbn [filter]; rewrite IH; [reflexivity |].
  destruct (f x) eqn:Hx; [| reflexivity].
  apply Hf in Hx. congruence.
Qed.

Lemma existsb_within (f : event -> bool) (l : list event) :
  within f -> existsb f (filter milestone l) = existsb f l.
Proof.
  intros Hf. induction l as [|x l IH]; cbn [filter existsb]; [reflexivity |].
  destruct (milestone x) eqn:Hm; cbn [existsb]; rewrite IH; [reflexivity |].
  destruct (f x) eqn:Hx; [| reflexivity].
  apply Hf in Hx. congruence.
Qed.

Lemma comes_first_within (f g : event -> bool) (l : list event) :
  within f -> within g ->
  comes_first f g (filter milestone l) = comes_first f g l.
Proof.
  intros Hf Hg. induction l as [|x l IH]; cbn [filter comes_first]; [reflexivity |].
  destruct (milestone x) eqn:Hm; cbn [comes_first].
  - now rewrite IH, existsb_within.
  - destruct (g x) eqn:Gx; [apply Hg in Gx; congruence |].
    destruct (f x) eqn:Fx; [apply Hf in Fx; congruence |].
    exact IH.
Qed.

Lemma count_within (f : event -> bool) (p : proc) :
  within f -> count f p = List.length (filter f (milestones p)).
Proof. intros Hf. unfold count, milestones. now rewrite filter_within. Qed.

Lemma comes_first_events (f g : event -> bool) (p : proc) :
  within f -> within g ->
  comes_first f g (events p) = comes_first f g (milestones p).
Proof. intros Hf Hg. unfold milestones. now rewrite comes_first_within. Qed.

(** *** Exceptions and their log lines *)

Lemma logged_app (l1 l2 : list (N * event)) :
  logged l1 -> logged l2 -> logged (l1 ++ l2).
Proof.
  intros H1 H2 t f msg Hin. apply in_app_or in Hin. apply in_or_app.
  destruct Hin; [left; now apply H1 | right; now apply H2].
Qed.

Lemma logged_plain (l : list (N * event)) (t : N) (x : event) :
  (forall f msg, x <> Raised f msg) -> logged l -> logged (l ++ [(t, x)]).
Proof.
  intros Hx Hl. apply logged_app; [exact Hl |].
  intros t' f msg [Heq | []]. injection Heq as _ Heq. now apply Hx in Heq.
Qed.

Lemma logged_by_time (h : N -> bool) (l : list (N * event)) :
  logged l -> logged (filter (fun te => h (fst te)) l).
Proof.
  intros Hl t f msg Hin. apply filter_In in Hin. destruct Hin as [Hin Ht].
  apply filter_In. split; [now apply Hl | exact Ht].
Qed.

Lemma in_schedule (te y : N * event) (l : list (N * event)) :
  In y (schedule te l) <-> y = te \/ In y l.
Proof.
  induction l as [|x l IH]; cbn [schedule In].
  - intuition.
  - destruct (fst x <=? fst te); cbn [In]; rewrite ?IH; intuition.
Qed.

Lemma in_schedule_all (t : N) (evs : list event) (y : N * event) (l : list (N * event)) :
  In y (fold_left (fun q x => schedule (t, x) q) evs l) <->
  In y l \/ exists x, In x evs /\ y = (t, x).
Proof.
  revert l. induction evs as [|x evs IH]; intros l; cbn [fold_left In].
  - split; [now left | intros [H | [x [[] _]]]; exact H].
  - rewrite IH, in_schedule. split.
    + intros [[-> | H] | [x' [H1 H2]]]; eauto.
    + intros [H | [x' [[<- | H1] H2]]]; eauto.
Qed.

Lemma tidy_boot : tidy boot.
Proof. split; intros t f msg []. Qed.

Section Tidy.

Variables (x : event) (t : N) (c : Z) (th : thread) (r : thread_run) (p : proc).

Hypothesis Hp : tidy p.

Lemma tidy_emit : (forall f msg, x <> Raised f msg) -> tidy (emit x p).
Proof.
  intros Hx. destruct Hp as [Ht Hq]. split; [| exact Hq].
  rewrite trace_emit. now apply logged_plain.
Qed.

Lemma tidy_failed (f : callee) (msg line : str) :
  line = log_line f msg -> tidy (emit (Print line) (emit (Raised f msg) p)).
Proof.
  intros ->. destruct Hp as [Ht Hq]. split; [| exact Hq].
  rewrite !trace_emit, <- app_assoc. apply logged_app; [exact Ht |].
  cbn [now emit app]. intros t' f' msg' [Heq | [Heq | []]]; [| discriminate].
  injection Heq as <- <- <-. right. now left.
Qed.

Lemma tidy_set_shutdown_flag : tidy (set_shutdown_flag p).
Proof.
  destruct Hp as [Ht Hq]. split; [| exact Hq].
  rewrite trace_set_shutdown_flag. apply logged_plain; [discriminate | exact Ht].
Qed.

Lemma tidy_advance : tidy (advance t p).
Proof.
  destruct Hp as [Ht Hq]. split.
  - rewrite trace_advance. apply logged_app; [exact Ht |].
    now apply (logged_by_time (fun u => u <=? t)).
  - rewrite pending_advance. now apply (logged_by_time (fun u => negb (u <=? t))).
Qed.

Lemma tidy_spawn : polite r -> tidy (spawn th r p).
Proof.
  intros [Hs Hf]. destruct Hp as [Ht Hq]. split.
  - rewrite trace_spawn. apply logged_app; [exact Ht |].
    intros t' f msg Hin. apply in_map_iff in Hin.
    destruct Hin as [y [Heq [Hy | Hy]]]; injection Heq as _ Heq; subst y;
      [discriminate | now apply Hs in Hy].
  - rewrite pending_spawn. destruct (finish r) as [d|]; [| exact Hq].
    intros t' f msg Hin. apply in_schedule_all in Hin. apply in_schedule_all.
    destruct Hin as [Hin | [y [Hy Heq]]].
    + left. now apply Hq.
    + injection Heq as -> <-. right. eauto.
Qed.

Lemma logged_os_exit : logged (trace (os_exit c p)).
Proof.
  rewrite trace_os_exit. apply logged_plain; [discriminate | apply Hp].
Qed.

Lemma logged_block_forever : logged (trace (block_forever p)).
Proof. rewrite trace_block_forever. destruct Hp. now apply logged_app. Qed.

End Tidy.

Ltac polite_run :=
  let H := fresh in
  split; cbn [at_start at_finish app In]; intros ? ? H;
  repeat (destruct H as [H | H];
          [ try discriminate H; injection H as <- <-; cbn [log_line]; auto 6 |]);
  try contradiction.

Ltac follow_up :=
  first [ apply logged_os_exit | apply logged_block_forever ];
  repeat match goal with
         | |- tidy boot => apply tidy_boot
         | |- tidy (emit (Print _) (emit (Raised _ _) _)) =>
             apply tidy_failed; [| reflexivity]
         | |- tidy (emit _ _) => apply tidy_emit; [| intros; discriminate]
         | |- tidy (set_shutdown_flag _) => apply tidy_set_shutdown_flag
         | |- tidy (advance _ _) => apply tidy_advance
         | |- tidy (spawn _ _ _) => apply tidy_spawn; [| polite_run]
         end.

(** *** Running a session by hand

    [control] unfolds the control flow of a run and leaves the steps on the
    process folded; [cmp] decides a comparison of two times, or splits on
    it; [known] uses what is known of an opaque call. *)

Ltac cmp :=
  match goal with
  | |- context [N.leb ?a ?b] => destruct (N.leb_spec a b); try lia
  | |- context [N.ltb ?a ?b] => destruct (N.ltb_spec a b); try lia
  | |- context [N.max ?a ?b] =>
      first [rewrite (N.max_l a b) by lia | rewrite (N.max_r a b) by lia]
  | |- context [N.min ?a ?b] =>
      first [ rewrite (N.min_l a b) by lia | rewrite (N.min_r a b) by lia
            | destruct (N.min_spec a b) as [[? ->]|[? ->]] ]
  end.

Ltac known :=
  match goal with
  | H : _ = Returns _ |- _ => progress rewrite H
  | H : _ = Raises _ _ |- _ => progress rewrite H
  | H : _ = Hangs |- _ => progress rewrite H
  end.

Ltac control :=
  repeat (progress
    (cbn [boot now threads run_session signal_handler normal_shutdown
          save_transcript_on_exit join interruptible resume arrives_first
          earliest over_by over_at option_map duration Nat.eqb
          try_except and_then call uncaught at_start at_finish finish];
     autorewrite with fields)).

Ltac fields :=
  cbn [boot now status shutdown_flag emit advance set_shutdown_flag spawn os_exit
       block_forever fold_left at_start].

Ltac execute :=
  unfold run_session; cbn [signal_handler];
  unfold force_end, wait_with_timeout, normal_shutdown;
  repeat known; control; repeat (cmp; control).

Ltac tally :=
  repeat first
    [ rewrite milestones_os_exit
    | rewrite milestones_emit
    | rewrite milestones_set_shutdown_flag
    | rewrite milestones_spawn
    | rewrite milestones_advance by auto 20 with quiet
    | rewrite milestones_block_forever by auto 20 with quiet ];
  cbn [filter milestone app at_start boot milestones events trace map].

(** *** The two kinds of run *)

(** A run with one interrupt that arrives while the session is on. *)
Lemma interrupted_run (e : env) (s f : N) :
  running_at e s -> duration (flush e (Handler 0)) = Some f ->
  forall p, p = run_session e [s] ->
  status p = Exited 0
  /\ now p = s + match duration (end_session e 0) with
                 | Some d => N.min d 2000
                 | None => 2000
                 end + f
  /\ shutdown_flag p = true
  /\ logged (trace p)
  /\ milestones p =
       [ Start WaitThread; Call WaitForSessionEnd; Sigint; FlagSet;
         Start (EndThread 0); Call EndSession;
         if over_by (duration (end_session e 0)) 2000
         then Joined (EndThread 0) else JoinTimeout (EndThread 0);
         Call SaveTranscript;
         match flush e (Handler 0) with
         | Raises _ msg => Raised SaveTranscript msg
         | _ => Done SaveTranscript
         end;
         Exit 0 ].
Proof.
  unfold running_at. intros Hrun Hf.
  destruct (wait_for_session_end e) as [dw|dw ew|] eqn:Ew;
    destruct (end_session e 0%nat) as [d|d ee|] eqn:E0;
    destruct (flush e (Handler 0%nat)) as [ff|ff ef|] eqn:E;
    cbn [duration] in Hrun, Hf; try discriminate Hf; injection Hf as ->.
  all: execute; intros p ->.
  all: split; [reflexivity |]; split; [fields; lia |]; split; [reflexivity |];
    split; [follow_up | tally; reflexivity].
Qed.

(** A run without interrupt in which the wait for the session's end comes
    back, with the id or with an exception. *)
Lemma uninterrupted_run (e : env) (dw f : N) :
  duration (wait_for_session_end e) = Some dw ->
  duration (flush e Normal) = Some f ->
  forall p, p = run_session e [] ->
  status p = Exited 0
  /\ now p = dw + f
  /\ shutdown_flag p = false
  /\ logged (trace p)
  /\ milestones p =
       [ Start WaitThread; Call WaitForSessionEnd; Joined WaitThread;
         Call SaveTranscript;
         match flush e Normal with
         | Raises _ msg => Raised SaveTranscript msg
         | _ => Done SaveTranscript
         end;
         Exit 0 ].
Proof.
  intros Hw Hf.
  destruct (wait_for_session_end e) as [d|d ew|] eqn:Ew;
    destruct (flush e Normal) as [ff|ff ef|] eqn:E;
    cbn [duration] in Hw, Hf; try discriminate Hw; try discriminate Hf;
    injection Hw as ->; injection Hf as ->.
  all: execute; intros p ->.
  all: split; [reflexivity |]; split; [fields; lia |]; split; [reflexivity |];
    split; [follow_up | tally; reflexivity].
Qed.


Lemma terminates_duration (b : behaviour) :
  terminates b -> exists f, duration b = Some f.
Proof.
  unfold terminates. destruct (duration b) as [f|]; [now exists f | congruence].
Qed.

(** What the claims read off a run: its status, its log lines and the
    order of its control events. *)
Ltac read_off H :=
  let Hst := fresh "Hst" in
  let Hnow := fresh "Hnow" in
  let Hflag := fresh "Hflag" in
  let Hlog := fresh "Hlog" in
  let Hms := fresh "Hms" in
  destruct H as (Hst & Hnow & Hflag & Hlog & Hms).

Lemma run_of_path (e : env) (pt : termination_path) :
  takes_path e pt -> terminates (flush e (flush_of pt)) ->
  let p := run_session e (signals pt) in
  status p = Exited 0
  /\ logged (trace p)
  /\ exists J,
       milestones p =
         Start WaitThread :: Call WaitForSessionEnd ::
         match pt with
         | NormalCompletion => [Joined WaitThread]
         | Interrupted _ =>
             [Sigint; FlagSet; Start (EndThread 0); Call EndSession; J]
         end ++
         [ Call SaveTranscript;
           match flush e (flush_of pt) with
           | Raises _ msg => Raised SaveTranscript msg
           | _ => Done SaveTranscript
           end;
           Exit 0 ]
       /\ is_join_back J = true.
Proof.
  intros Hpath Hflush p. apply terminates_duration in Hflush. destruct Hflush as [f Hf].
  destruct pt as [|s]; cbn [takes_path flush_of signals] in *.
  - apply terminates_duration in Hpath. destruct Hpath as [dw Hw].
    pose proof (uninterrupted_run e dw f Hw Hf p eq_refl) as H. read_off H.
    split; [exact Hst |]. split; [exact Hlog |].
    exists (Joined (EndThread 0)). split; [exact Hms | reflexivity].
  - pose proof (interrupted_run e s f Hpath Hf p eq_refl) as H. read_off H.
    split; [exact Hst |]. split; [exact Hlog |].
    eexists. split; [exact Hms |]. now destruct (over_by _ _).
Qed.

Ltac along_path e pt Hpath Hflush J Hms :=
  let Hst := fresh "Hst" in
  let Hlog := fresh "Hlog" in
  let HJ := fresh "HJ" in
  destruct (run_of_path e pt Hpath Hflush) as (Hst & Hlog & J & Hms & HJ);
  destruct J as [| | | | | | | |[]|[]|]; try discriminate HJ; clear HJ.

Ltac ordered Hms :=
  rewrite ?comes_first_events, ?count_within by auto with quiet;
  rewrite Hms;
  repeat match goal with
         | |- context [match ?b with Returns _ => _ | Raises _ _ => _ | Hangs => _ end] =>
             destruct b
         end;
  reflexivity.

(** C3: on every termination path (the session ends by itself, the wait
    for its end fails, the operator interrupts, [end_session()] fails) the
    transcript flush is called before the process exits; an exception of the
    write is logged and the process still exits, with status 0 as without
    the exception. *)
Theorem flush_before_exit_on_every_path (e : env) (pt : termination_path) :
  takes_path e pt ->
  terminates (flush e (flush_of pt)) ->
  let p := run_session e (signals pt) in
  status p = Exited 0
  /\ comes_first is_flush is_exit (events p) = true
  /\ (forall t msg, In (t, Raised SaveTranscript msg) (trace p) ->
        In (t, Print (log_line SaveTranscript msg)) (trace p))
  /\ match flush e (flush_of pt) with
     | Raises _ msg => In (Raised SaveTranscript msg) (milestones p)
     | _ => In (Done SaveTranscript) (milestones p)
     end.
Proof.
  intros Hpath Hflush p. subst p. along_path e pt Hpath Hflush J Hms.
  all: split; [assumption |]; split; [destruct pt; ordered Hms |].
  all: split; [intros t msg; auto |].
  all: rewrite Hms; destruct pt, (flush e _); cbn [In app]; auto 12.
Qed.

Lemma flush_before_exit_on_every_path_witness :
  takes_path failing_remote NormalCompletion
  /\ terminates (flush failing_remote Normal)
  /\ status (run_session failing_remote []) = Exited 0.
Proof.
  assert (H1 : takes_path failing_remote NormalCompletion) by (cbv; discriminate).
  assert (H2 : terminates (flush failing_remote Normal)) by (cbv; discriminate).
  split; [exact H1 |]. split; [exact H2 |].
  exact (proj1 (flush_before_exit_on_every_path failing_remote NormalCompletion H1 H2)).
Defined.

(** C8: an exception of [wait_for_session_end()] or of [end_session()]
    never leaves the thread body that made the call ([force_end],
    [wait_with_timeout]): it is caught there and its line is printed.  The
    shutdown goes on to the flush and to the exit whether or not the remote
    calls raise. *)
Theorem remote_errors_stay_local (e : env) (pt : termination_path) :
  takes_path e pt ->
  terminates (flush e (flush_of pt)) ->
  let p := run_session e (signals pt) in
  (forall k, uncaught (force_end e k) = None)
  /\ uncaught (wait_with_timeout e) = None
  /\ (forall k msg, uncaught (call EndSession (end_session e k)) = Some msg ->
        In (Print (log_line EndSession msg)) (at_finish (force_end e k)))
  /\ (forall msg,
        uncaught (call WaitForSessionEnd (wait_for_session_end e)) = Some msg ->
        In (Print (log_line WaitForSessionEnd msg)) (at_finish (wait_with_timeout e)))
  /\ (forall t f msg, In (t, Raised f msg) (trace p) ->
        In (t, Print (log_line f msg)) (trace p))
  /\ status p = Exited 0
  /\ comes_first is_flush is_exit (events p) = true.
Proof.
  intros Hpath Hflush p. subst p.
  split; [intros k; unfold force_end; now destruct (end_session e k) |].
  split; [unfold wait_with_timeout; now destruct (wait_for_session_end e) |].
  split; [intros k msg; unfold force_end; destruct (end_session e k);
          cbn; intros H; try discriminate H; injection H as ->; auto |].
  split; [intros msg; unfold wait_with_timeout; destruct (wait_for_session_end e);
          cbn; intros H; try discriminate H; injection H as ->; auto |].
  along_path e pt Hpath Hflush J Hms.
  all: split; [assumption |]; split; [assumption |]; destruct pt; ordered Hms.
Qed.

Lemma remote_errors_stay_local_witness :
  takes_path failing_remote (Interrupted 100)
  /\ terminates (flush failing_remote (Handler 0))
  /\ status (run_session failing_remote [100]) = Exited 0.
Proof.
  assert (H1 : takes_path failing_remote (Interrupted 100)) by reflexivity.
  assert (H2 : terminates (flush failing_remote (Handler 0))) by (cbv; discriminate).
  split; [exact H1 |]. split; [exact H2 |].
  exact (proj1 (proj2 (proj2 (proj2 (proj2 (proj2
    (remote_errors_stay_local failing_remote (Interrupted 100) H1 H2))))))).
Defined.

(** What [failing_remote] shows of an interrupt at 100 ms: [end_session()]
    raises at 400 ms, inside the join; the line is printed, the join comes
    back, the flush fails at 420 ms, its line is printed, the process exits. *)
Example failing_remote_interrupted :
  map snd (skipn 7 (trace (run_session failing_remote [100]))) =
  [ Raised EndSession (lit "socket closed");
    Print (fmt "Error ending session: " (lit "socket closed"));
    Joined (EndThread 0);
    Call SaveTranscript;
    Raised SaveTranscript (lit "disk full");
    Print (fmt "Error saving transcript: " (lit "disk full"));
    Exit 0 ]
  /\ exit_time (run_session failing_remote [100]) = Some 420.
Proof. split; vm_compute; reflexivity. Qed.

(** *** The first interrupt *)

Lemma shutdown_flag_spawn (th : thread) (r : thread_run) (p : proc) :
  shutdown_flag (spawn th r p) = shutdown_flag p.
Proof.
  unfold spawn; cbn [shutdown_flag].
  generalize (Start th :: at_start r). intros l. revert p.
  induction l as [|x l IH]; intros p; cbn [fold_left]; [reflexivity |].
  now rewrite IH.
Qed.

Lemma at_start_force_end (e : env) (k : nat) :
  at_start (force_end e k) = [Call EndSession].
Proof. unfold force_end. now destruct (end_session e k). Qed.

Lemma at_start_wait_with_timeout (e : env) :
  at_start (wait_with_timeout e) = [Call WaitForSessionEnd].
Proof. unfold wait_with_timeout. now destruct (wait_for_session_end e). Qed.

Lemma occ_app (f : event -> bool) (l1 l2 : list event) :
  occ f (l1 ++ l2) = (occ f l1 + occ f l2)%nat.
Proof. unfold occ. now rewrite filter_app, length_app. Qed.

Lemma count_occ (f : event -> bool) (p : proc) :
  within f -> count f p = occ f (milestones p).
Proof. apply count_within. Qed.

Lemma first_interrupt_taken (e : env) (s : N) (rest : list N) :
  running_at e s ->
  run_session e (s :: rest) =
  signal_handler e 0 rest
    (emit Sigint (advance s (spawn WaitThread (wait_with_timeout e) boot))).
Proof.
  unfold running_at. intros Hrun.
  assert (Hfin : finish (wait_with_timeout e) = duration (wait_for_session_end e))
    by (unfold wait_with_timeout; now destruct (wait_for_session_end e)).
  unfold run_session, join. rewrite threads_spawn, Hfin.
  cbn [over_at option_map]. unfold interruptible.
  destruct (duration (wait_for_session_end e)) as [dw|]; cbn [option_map earliest arrives_first];
    [| reflexivity].
  destruct (N.ltb_spec s (now boot + dw)); [reflexivity |].
  cbn [now boot] in *. lia.
Qed.


End SupervisorFacts.

(* ------------------------------------------------------------------ *)
(** ** Session supervisor: any number of interrupts                     *)
(* ------------------------------------------------------------------ *)

Module ShutdownFacts.

Import PyStr Supervisor SupervisorFacts Shutdown.
Local Open Scope N_scope.
Local Open Scope list_scope.

#[local] Hint Extern 1 (tame _) => unfold tame; cbn; repeat constructor : quiet.

#[local] Hint Resolve quiet_boot quiet_emit quiet_set_shutdown_flag quiet_advance
  quiet_spawn force_end_tame wait_with_timeout_tame
  within_is_exit within_is_flush within_is_end_session
  within_is_join_back within_is_sigint : quiet.

(** *** The control events with their times *)

Lemma stamped_quiet (l : list (N * event)) :
  quiet l -> filter (fun te => milestone (snd te)) l = [].
Proof.
  induction 1 as [|x l Hx _ IH]; cbn [filter]; [reflexivity |].
  now rewrite Hx.
Qed.

Lemma stamped_pairs (t : N) (l : list event) :
  filter (fun te => milestone (snd te)) (map (pair t) l) = map (pair t) (filter milestone l).
Proof.
  induction l as [|x l IH]; cbn [map filter snd]; [reflexivity |].
  destruct (milestone x); cbn [map]; now rewrite IH.
Qed.

Section Stamped.

Variables (x : event) (t : N) (c : Z) (th : thread) (r : thread_run) (p : proc).

Lemma stamped_emit :
  stamped (emit x p) = stamped p ++ (if milestone x then [(now p, x)] else []).
Proof.
  unfold stamped. rewrite trace_emit, filter_app. cbn [filter snd].
  now destruct (milestone x).
Qed.

Lemma stamped_set_shutdown_flag :
  stamped (set_shutdown_flag p) = stamped p ++ [(now p, FlagSet)].
Proof. unfold stamped. now rewrite trace_set_shutdown_flag, filter_app. Qed.

Lemma stamped_os_exit : stamped (os_exit c p) = stamped p ++ [(now p, Exit c)].
Proof. unfold stamped. now rewrite trace_os_exit, filter_app. Qed.

Lemma stamped_spawn :
  stamped (spawn th r p) =
  stamped p ++ (now p, Start th) :: map (pair (now p)) (filter milestone (at_start r)).
Proof.
  unfold stamped. rewrite trace_spawn, filter_app, stamped_pairs. reflexivity.
Qed.

Hypothesis Hp : quiet (pending p).

Lemma stamped_advance : stamped (advance t p) = stamped p.
Proof.
  unfold stamped. rewrite trace_advance, filter_app.
  rewrite (stamped_quiet _ (quiet_filter _ _ Hp)). apply app_nil_r.
Qed.

Lemma stamped_block_forever : stamped (block_forever p) = stamped p.
Proof.
  unfold stamped. rewrite trace_block_forever, filter_app.
  rewrite (stamped_quiet _ Hp). apply app_nil_r.
Qed.

End Stamped.

Lemma milestones_stamped (p : proc) : milestones p = map snd (stamped p).
Proof.
  unfold milestones, events, stamped.
  induction (trace p) as [|x l IH]; cbn [map filter]; [reflexivity |].
  destruct (milestone (snd x)); cbn [map]; now rewrite IH.
Qed.

Lemma taken_stamped (p : proc) : taken p = sigints (stamped p).
Proof.
  unfold taken, sigints, stamped.
  induction (trace p) as [|x l IH]; cbn [map filter]; [reflexivity |].
  destruct (is_sigint (snd x)) eqn:E.
  - rewrite (within_is_sigint _ E). cbn [filter map]. now rewrite E, IH.
  - destruct (milestone (snd x)); cbn [filter]; rewrite ?E; exact IH.
Qed.


(** *** A run follows its plan *)

Lemma follows_after (p p1 q : proc) (l : list (N * event)) (r : plan) :
  stamped p1 = stamped p ++ l -> follows p1 q r -> follows p q (after l r).
Proof.
  intros H (Hs & Hst & Hn). unfold follows, after. cbn [fst snd].
  split; [| split; assumption]. now rewrite Hs, H, app_assoc.
Qed.

Lemma resume_follows (until : option N) (cont : proc -> proc) (done : N -> plan)
    (p : proc) :
  quiet (pending p) ->
  (forall v, until = Some v -> follows (advance v p) (cont (advance v p)) (done v)) ->
  follows p (resume until cont p) (resumed until done).
Proof.
  intros Hq H. destruct until as [v|]; cbn [resume resumed].
  - destruct (H v eq_refl) as (Hs & Hst & Hn).
    split; [| split; assumption]. now rewrite Hs, stamped_advance.
  - split; [| split]; cbn [blocked fst snd].
    + now rewrite stamped_block_forever, app_nil_r.
    + reflexivity.
    + discriminate.
Qed.

Lemma interruptible_follows (until : option N) (next : interrupt)
    (nextP : option (N * (N -> plan))) (cont : proc -> proc) (done : N -> plan)
    (p : proc) (from : N) :
  now p = from -> quiet (pending p) -> related next nextP ->
  (forall v, until = Some v -> follows (advance v p) (cont (advance v p)) (done v)) ->
  follows p (interruptible until next cont p) (blocking from until nextP done).
Proof.
  intros <- Hq Hn H. unfold interruptible, blocking.
  destruct next as [[s h]|], nextP as [[s' hP]|]; cbn [related] in Hn; try contradiction;
    [| now apply resume_follows].
  destruct Hn as [<- Hh]. destruct (arrives_first s until); [| now apply resume_follows].
  apply (follows_after p (emit Sigint (advance s p))).
  - now rewrite stamped_emit, stamped_advance.
  - apply (Hh (emit Sigint (advance s p))). auto with quiet.
Qed.

Lemma save_follows (b : behaviour) (next : interrupt)
    (nextP : option (N * (N -> plan))) (p : proc) :
  quiet (pending p) -> related next nextP ->
  follows p (save_transcript_on_exit b next (os_exit 0) p) (flush_plan b nextP (now p)).
Proof.
  intros Hq Hn. unfold save_transcript_on_exit, flush_plan.
  apply (follows_after p (emit (Call SaveTranscript) p)); [now rewrite stamped_emit |].
  apply interruptible_follows; [apply now_emit | auto with quiet | exact Hn |].
  assert (Hq1 : quiet (pending (emit (Call SaveTranscript) p))) by auto with quiet.
  intros v Hv.
  assert (Hnow : now (advance v (emit (Call SaveTranscript) p)) = v).
  { rewrite now_advance, now_emit.
    destruct (duration b); cbn [option_map] in Hv; [| discriminate].
    injection Hv as <-. lia. }
  destruct b as [d|d msg|]; cbn [duration option_map] in Hv; try discriminate Hv;
    (split; [| split; [reflexivity
                      | cbn [snd]; intros T [= <-]; now rewrite now_os_exit, ?now_emit]]).
  - rewrite stamped_os_exit, stamped_emit, stamped_advance, now_emit, Hnow by exact Hq1.
    cbn [milestone flush_result fst]. now rewrite <- app_assoc.
  - rewrite stamped_os_exit, !stamped_emit, stamped_advance, !now_emit, Hnow by exact Hq1.
    cbn [milestone flush_result fst]. now rewrite app_nil_r, <- app_assoc.
Qed.

Lemma finish_force_end (e : env) (k : nat) :
  finish (force_end e k) = duration (end_session e k).
Proof. unfold force_end. now destruct (end_session e k). Qed.

Lemma finish_wait_with_timeout (e : env) :
  finish (wait_with_timeout e) = duration (wait_for_session_end e).
Proof. unfold wait_with_timeout. now destruct (wait_for_session_end e). Qed.

Lemma join_deadline (e : env) (k : nat) (t : N) :
  earliest (option_map (N.add t) (duration (end_session e k))) (Some (t + 2000)) =
  Some (t + join_length e k).
Proof.
  unfold join_length. destruct (duration (end_session e k)) as [d|]; cbn; [| reflexivity].
  f_equal. lia.
Qed.

Lemma join_comes_back (e : env) (k : nat) (t : N) :
  over_by (option_map (N.add t) (duration (end_session e k))) (t + join_length e k) =
  over_by (duration (end_session e k)) 2000.
Proof.
  unfold join_length. destruct (duration (end_session e k)) as [d|]; cbn; [| reflexivity].
  destruct (N.leb_spec (t + d) (t + N.min d 2000)), (N.leb_spec d 2000); lia || reflexivity.
Qed.

(** One run of the handler, whatever a pending interrupt starts. *)
Lemma handler_run_follows (e : env) (k : nat) (next : interrupt)
    (nextP : option (N * (N -> plan))) (p : proc) :
  quiet (pending p) -> related next nextP ->
  follows p
    (join (EndThread k) (Some 2000) next
       (save_transcript_on_exit (flush e (Handler k)) next (os_exit 0))
       (spawn (EndThread k) (force_end e k)
          (set_shutdown_flag
             (emit (Print (10 :: 10 :: lit "Ending conversation...")) p))))
    (after [(now p, FlagSet); (now p, Start (EndThread k)); (now p, Call EndSession)]
       (blocking (now p) (Some (now p + join_length e k)) nextP
          (fun u => after [(u, join_back e k)]
                      (flush_plan (flush e (Handler k)) nextP u)))).
Proof.
  intros Hq Hn.
  set (p3 := spawn (EndThread k) (force_end e k)
               (set_shutdown_flag
                  (emit (Print (10 :: 10 :: lit "Ending conversation...")) p))).
  assert (Hq3 : quiet (pending p3)) by (subst p3; auto 10 with quiet).
  assert (Hnow : now p3 = now p)
    by (subst p3; now rewrite now_spawn, now_set_shutdown_flag, now_emit).
  assert (Hth : over_at (EndThread k) (threads p3) =
                option_map (N.add (now p)) (duration (end_session e k))).
  { subst p3. rewrite threads_spawn, now_set_shutdown_flag, now_emit, finish_force_end.
    cbn [over_at]. now rewrite Nat.eqb_refl. }
  apply (follows_after p p3).
  { subst p3. rewrite stamped_spawn, stamped_set_shutdown_flag, stamped_emit,
      at_start_force_end, now_set_shutdown_flag, !now_emit.
    cbn [milestone filter map]. now rewrite app_nil_r, <- app_assoc. }
  unfold join. rewrite Hth. cbn [option_map]. rewrite Hnow, join_deadline.
  apply interruptible_follows; [exact Hnow | exact Hq3 | exact Hn |].
  intros v Hv. injection Hv as <-.
  set (u := now p + join_length e k).
  assert (Hu : now (advance u p3) = u) by (subst u; rewrite now_advance; lia).
  set (J := if over_by (option_map (N.add (now p)) (duration (end_session e k)))
                       (now (advance u p3))
            then Joined (EndThread k) else JoinTimeout (EndThread k)).
  apply (follows_after _ (emit J (advance u p3))).
  - rewrite stamped_emit. subst J. rewrite Hu. subst u.
    rewrite join_comes_back. unfold join_back.
    now destruct (over_by (duration (end_session e k)) 2000).
  - replace (flush_plan (flush e (Handler k)) nextP u)
      with (flush_plan (flush e (Handler k)) nextP (now (emit J (advance u p3))))
      by now rewrite now_emit, Hu.
    apply save_follows; [auto with quiet | exact Hn].
Qed.

Lemma handler_follows (e : env) (sigs : list N) :
  forall k p, quiet (pending p) ->
  follows p (signal_handler e k sigs p) (handler_plan e k sigs (now p)).
Proof.
  induction sigs as [|s rest IH]; intros k p Hq; cbn [signal_handler handler_plan];
    apply handler_run_follows; try exact Hq; cbn [related]; auto.
Qed.

Lemma session_follows (e : env) (sigs : list N) :
  follows boot (run_session e sigs) (session_plan e sigs).
Proof.
  unfold run_session, session_plan, normal_shutdown.
  set (next := match sigs with [] => None | s :: rest => Some (s, signal_handler e 0 rest) end).
  set (nextP := match sigs with [] => None | s :: rest => Some (s, handler_plan e 0 rest) end).
  assert (Hn : related next nextP).
  { subst next nextP. destruct sigs as [|s rest]; cbn [related]; [exact I |].
    split; [reflexivity |]. intros p Hq. now apply handler_follows. }
  set (p1 := spawn WaitThread (wait_with_timeout e) boot).
  assert (Hq1 : quiet (pending p1)) by (subst p1; auto with quiet).
  assert (Hnow : now p1 = 0) by (subst p1; now rewrite now_spawn).
  assert (Hth : over_at WaitThread (threads p1) = duration (wait_for_session_end e)).
  { subst p1. rewrite threads_spawn, finish_wait_with_timeout. cbn [over_at now boot].
    now destruct (duration (wait_for_session_end e)). }
  apply (follows_after boot p1).
  { subst p1. rewrite stamped_spawn, at_start_wait_with_timeout. reflexivity. }
  unfold join. rewrite Hth. cbn [option_map].
  replace (earliest (duration (wait_for_session_end e)) None)
    with (duration (wait_for_session_end e))
    by now destruct (duration (wait_for_session_end e)).
  apply interruptible_follows; [exact Hnow | exact Hq1 | exact Hn |].
  intros v Hv.
  assert (Hnv : now (advance v p1) = v) by (rewrite now_advance; lia).
  set (J := if over_by (duration (wait_for_session_end e)) (now (advance v p1))
            then Joined WaitThread else JoinTimeout WaitThread).
  apply (follows_after _ (emit J (advance v p1))).
  - rewrite stamped_emit. subst J. rewrite Hnv, Hv. cbn [over_by]. now rewrite N.leb_refl.
  - replace (flush_plan (flush e Normal) nextP v)
      with (flush_plan (flush e Normal) nextP (now (emit J (advance v p1))))
      by now rewrite now_emit, Hnv.
    apply save_follows; [auto with quiet | exact Hn].
Qed.

(** The log of a run and its end, read off the plan. *)
Lemma run_by_plan (e : env) (sigs : list N) :
  let p := run_session e sigs in
  let r := session_plan e sigs in
  stamped p = fst r /\ exit_time p = snd r
  /\ status p = match snd r with Some _ => Exited 0 | None => Blocked end.
Proof.
  destruct (session_follows e sigs) as (Hs & Hst & Hn).
  split; [exact Hs |]. split; [| exact Hst].
  unfold exit_time. rewrite Hst. destruct (snd (session_plan e sigs)) as [T|]; [| reflexivity].
  f_equal. now apply Hn.
Qed.

(** *** What a plan comes to *)

Lemma ascending_tail (a : N) (l : list N) : ascending (a :: l) = true -> ascending l = true.
Proof.
  destruct l as [|b l]; [reflexivity |]. cbn [ascending].
  intros H. now apply andb_true_iff in H.
Qed.

Lemma ascending_head (a b : N) (l : list N) : ascending (a :: b :: l) = true -> a <= b.
Proof.
  cbn [ascending]. intros H. apply andb_true_iff in H. now apply N.leb_le.
Qed.

Lemma ascending_above (T : N) (l : list N) :
  forall s, ascending (s :: l) = true -> T <= s -> Forall (fun x => T <= x) (s :: l).
Proof.
  induction l as [|b l IH]; intros s Hs HT; constructor; auto.
  apply IH; [now apply ascending_tail in Hs |].
  apply ascending_head in Hs. lia.
Qed.

Lemma last_cons (l : list N) : forall s t, last (s :: l) t = last l s.
Proof.
  induction l as [|a l IH]; intros s t; [reflexivity |].
  change (last (s :: a :: l) t) with (last (a :: l) t). now rewrite !IH.
Qed.

Lemma join_back_is (e : env) (k : nat) :
  join_back e k = Joined (EndThread k) \/ join_back e k = JoinTimeout (EndThread k).
Proof. unfold join_back. destruct (over_by _ _); auto. Qed.

Lemma flush_result_is (b : behaviour) :
  flush_result b = Done SaveTranscript \/ exists msg, flush_result b = Raised SaveTranscript msg.
Proof. destruct b; cbn; eauto. Qed.

Ltac unfold_plan :=
  cbn [handler_plan]; unfold flush_plan, blocking, resumed, after;
  cbn [option_map arrives_first fst snd app].

(** No interrupt arrives before the run is over. *)
Lemma handler_plan_alone (e : env) (k : nat) (sigs : list N) (t f : N) :
  duration (flush e (Handler k)) = Some f ->
  (forall s, In s sigs -> t + join_length e k + f <= s) ->
  handler_plan e k sigs t = (run_log e k t f, Some (t + join_length e k + f)).
Proof.
  intros Hf Hs. destruct sigs as [|s rest]; unfold_plan; rewrite Hf;
    cbn [option_map arrives_first]; [reflexivity |].
  specialize (Hs s (or_introl eq_refl)).
  destruct (N.ltb_spec s (t + join_length e k)); [lia |].
  destruct (N.ltb_spec s (t + join_length e k + f)); [lia | reflexivity].
Qed.

(** The next interrupt arrives while the handler is in its join. *)
Lemma handler_plan_in_join (e : env) (k : nat) (s : N) (rest : list N) (t : N) :
  t <= s -> s < t + join_length e k ->
  handler_plan e k (s :: rest) t =
  after [(t, FlagSet); (t, Start (EndThread k)); (t, Call EndSession); (s, Sigint)]
        (handler_plan e (S k) rest s).
Proof.
  intros Hts Hs. unfold_plan.
  destruct (N.ltb_spec s (t + join_length e k)); [| lia].
  now rewrite (N.max_r t s) by lia.
Qed.

(** The next interrupt arrives while the handler writes the transcript. *)
Lemma handler_plan_in_flush (e : env) (k : nat) (s : N) (rest : list N) (t : N) :
  t + join_length e k <= s ->
  arrives_first s (option_map (N.add (t + join_length e k))
                     (duration (flush e (Handler k)))) = true ->
  handler_plan e k (s :: rest) t =
  after [ (t, FlagSet); (t, Start (EndThread k)); (t, Call EndSession);
          (t + join_length e k, join_back e k);
          (t + join_length e k, Call SaveTranscript); (s, Sigint) ]
        (handler_plan e (S k) rest s).
Proof.
  intros Hts Hs. unfold_plan.
  destruct (N.ltb_spec s (t + join_length e k)); [lia |].
  rewrite Hs. cbn [fst snd app]. now rewrite (N.max_r (t + join_length e k) s) by lia.
Qed.

Lemma sigints_app (l1 l2 : list (N * event)) :
  sigints (l1 ++ l2) = sigints l1 ++ sigints l2.
Proof. unfold sigints. now rewrite filter_app, map_app. Qed.

Lemma shape_alone (e : env) (k : nat) (t f : N) (left : list N) :
  duration (flush e (Handler k)) = Some f ->
  Forall (fun s' => t + join_length e k + f <= s') left ->
  shape e k t [] left (run_log e k t f, Some (t + join_length e k + f)).
Proof.
  intros Hf Hleft. unfold shape. cbn [List.length last fst snd]. rewrite Nat.add_0_r.
  assert (HJ := join_back_is e k). assert (HR := flush_result_is (flush e (Handler k))).
  split; [| split; [| split; [| split]]].
  - unfold run_log, sigints. destruct HJ as [-> | ->], HR as [-> | [msg ->]]; reflexivity.
  - exists f. split; [exact Hf |]. split; [reflexivity |]. split; [exact Hleft |].
    now exists [].
  - intros [|[|i]] ti; cbn [nth_error]; try discriminate. intros [= <-].
    rewrite Nat.add_0_r. unfold run_log. cbn [In]. auto 6.
  - unfold run_log, occ. destruct HJ as [-> | ->], HR as [-> | [msg ->]]; reflexivity.
  - unfold run_log, occ. destruct HJ as [-> | ->], HR as [-> | [msg ->]]; cbn; lia.
Qed.

Lemma shape_retaken (e : env) (k : nat) (t s : N) (took left : list N)
    (pre : list (N * event)) (r : plan) :
  shape e (S k) s took left r ->
  sigints pre = [s] ->
  In (t, FlagSet) pre -> In (t, Start (EndThread k)) pre -> In (t, Call EndSession) pre ->
  occ is_end_session (map snd pre) = 1%nat ->
  (occ is_flush (map snd pre) <= 1)%nat ->
  occ is_exit (map snd pre) = 0%nat ->
  shape e k t (s :: took) left (after pre r).
Proof.
  unfold shape. intros (Hs & (f & Hf & Hexit & Hleft & l & Hl & Hnone) & Hin & Hes & Hfl)
    Hpre H1 H2 H3 Hpes Hpfl Hpex.
  cbn [after fst snd List.length]. rewrite last_cons, Nat.add_succ_r.
  cbn [Nat.add] in Hf, Hexit, Hleft, Hl.
  split; [| split; [| split; [| split]]].
  - now rewrite sigints_app, Hpre, Hs.
  - exists f. split; [exact Hf |]. split; [exact Hexit |]. split; [exact Hleft |].
    exists (pre ++ l). split; [now rewrite Hl, app_assoc |].
    rewrite map_app, occ_app. lia.
  - intros [|i] ti; cbn [nth_error].
    + intros [= <-]. rewrite Nat.add_0_r. rewrite !in_app_iff. auto.
    + intros Hi. destruct (Hin i ti Hi) as (I1 & I2 & I3).
      rewrite Nat.add_succ_r. cbn [Nat.add] in I2. rewrite !in_app_iff. auto.
  - rewrite map_app, occ_app. lia.
  - rewrite map_app, occ_app. lia.
Qed.

(** Every interrupt that arrives before a run of the handler is over starts
    the next run, at its arrival; the run that no interrupt cuts short is
    the last, and it goes through the join, the flush and the exit. *)
Lemma handler_plan_shape (e : env) :
  (forall k, terminates (flush e (Handler k))) ->
  forall sigs k t, ascending (t :: sigs) = true ->
  exists took left, sigs = took ++ left /\ shape e k t took left (handler_plan e k sigs t).
Proof.
  intros Hfl. induction sigs as [|s rest IH]; intros k t Hasc.
  - destruct (terminates_duration _ (Hfl k)) as [f Hf].
    exists [], []. split; [reflexivity |].
    rewrite (handler_plan_alone e k [] t f Hf) by (intros s []).
    now apply shape_alone.
  - pose proof (ascending_head _ _ _ Hasc) as Hts.
    pose proof (ascending_tail _ _ Hasc) as Hrest.
    destruct (terminates_duration _ (Hfl k)) as [f Hf].
    assert (HJ := join_back_is e k).
    destruct (N.lt_ge_cases s (t + join_length e k)) as [Hjoin | Hjoin].
    { destruct (IH (S k) s Hrest) as (took & left & -> & Hshape).
      exists (s :: took), left. split; [reflexivity |].
      rewrite handler_plan_in_join by assumption.
      apply shape_retaken; cbn [In]; auto 6. }
    destruct (N.lt_ge_cases s (t + join_length e k + f)) as [Hflush | Hflush].
    { destruct (IH (S k) s Hrest) as (took & left & -> & Hshape).
      exists (s :: took), left. split; [reflexivity |].
      rewrite handler_plan_in_flush;
        [| assumption | rewrite Hf; cbn [option_map arrives_first]; now apply N.ltb_lt].
      apply shape_retaken; cbn [In]; auto 8;
        destruct HJ as [-> | ->]; cbn; auto. }
    exists [], (s :: rest). split; [reflexivity |].
    assert (Hall : Forall (fun x => t + join_length e k + f <= x) (s :: rest))
      by now apply ascending_above.
    rewrite (handler_plan_alone e k (s :: rest) t f Hf)
      by (intros x Hx; now apply (proj1 (Forall_forall _ _) Hall)).
    now apply shape_alone.
Qed.

(** *** Order of the flush *)

Lemma flush_follows_join_nil : flush_follows_join [].
Proof. intros [|x l1] l2 H; discriminate H. Qed.

Lemma flush_follows_join_plain (l m : list event) :
  flush_follows_join l -> Forall (fun x => is_flush x = false) m ->
  flush_follows_join (l ++ m).
Proof.
  intros HQ Hm l1 l2 E.
  assert (Hno : forall a b, m <> a ++ Call SaveTranscript :: b).
  { intros a b ->. apply Forall_app in Hm. destruct Hm as [_ Hm].
    inversion Hm as [|? ? Hx _]. discriminate Hx. }
  apply app_eq_app in E. destruct E as [x [[E1 E2] | [E1 E2]]].
  - destruct x as [|y x]; cbn [app] in E2.
    + symmetry in E2. now apply (Hno []) in E2.
    + injection E2 as <- _. now apply (HQ l1 x).
  - now apply Hno in E2.
Qed.

Lemma flush_follows_join_flush (l : list event) :
  flush_follows_join l -> after_join l ->
  flush_follows_join (l ++ [Call SaveTranscript]).
Proof.
  intros HQ Hl l1 l2 E.
  apply app_eq_app in E. destruct E as [x [[E1 E2] | [E1 E2]]].
  - destruct x as [|y x]; cbn [app] in E2.
    + rewrite app_nil_r in E1. now subst l1.
    + injection E2 as <- _. now apply (HQ l1 x).
  - destruct x as [|y x]; cbn [app] in E2.
    + rewrite app_nil_r in E1. now subst l1.
    + injection E2 as _ E2. now destruct x.
Qed.

Lemma exits_after_flush_more (l m : list event) :
  occ is_exit l = 0%nat -> exits_after_flush m -> exits_after_flush (l ++ m).
Proof.
  intros Hl (l0 & r & -> & Hr & H0). exists (l ++ l0), r.
  split; [now rewrite app_assoc |]. split; [exact Hr |]. rewrite occ_app. lia.
Qed.

Lemma ends_in_order_after (l : list (N * event)) (r : plan) :
  occ is_exit (map snd l) = 0%nat -> ends_in_order r -> ends_in_order (after l r).
Proof.
  unfold ends_in_order, after. cbn [fst snd]. intros Hl H. rewrite map_app.
  destruct (snd r); [now apply exits_after_flush_more | rewrite occ_app; lia].
Qed.

Lemma blocking_cases (P : plan -> Prop) (from : N) (until : option N)
    (next : option (N * (N -> plan))) (done : N -> plan) :
  (forall s h, next = Some (s, h) ->
     P (after [(N.max from s, Sigint)] (h (N.max from s)))) ->
  (forall v, until = Some v -> P (done v)) ->
  (until = None -> next = None -> P blocked) ->
  P (blocking from until next done).
Proof.
  intros Hn Hd Hb. unfold blocking, resumed.
  destruct next as [[s h]|]; [destruct (arrives_first s until) eqn:E; [now apply Hn |] |];
    destruct until; auto; discriminate E.
Qed.

Ltac no_flush := cbn [map snd]; repeat constructor.

Ltac regroup pre :=
  match goal with
  | |- flush_follows_join (pre ++ ?a :: ?b :: ?c :: ?d :: ?l) =>
      change (flush_follows_join (pre ++ [a; b; c; d] ++ l)); rewrite app_assoc
  | |- flush_follows_join (pre ++ ?a :: ?b :: ?c :: ?l) =>
      change (flush_follows_join (pre ++ [a; b; c] ++ l)); rewrite app_assoc
  | |- flush_follows_join (pre ++ ?a :: ?b :: ?l) =>
      change (flush_follows_join (pre ++ [a; b] ++ l)); rewrite app_assoc
  end.

Lemma orderly_flush_plan (b : behaviour) (next : option (N * (N -> plan))) (u : N) :
  orderly_next next -> orderly_flush (flush_plan b next u).
Proof.
  intros Hn. unfold flush_plan.
  apply (blocking_cases (fun r => orderly_flush (after [(u, Call SaveTranscript)] r))).
  - intros s h E. destruct (Hn s h E (N.max u s)) as [HQ He]. split.
    + intros pre Hpre Hj. unfold after. cbn [fst map snd app]. regroup pre.
      apply HQ.
      change (pre ++ [Call SaveTranscript; Sigint])
        with (pre ++ [Call SaveTranscript] ++ [Sigint]).
      rewrite app_assoc. apply flush_follows_join_plain; [| no_flush].
      now apply flush_follows_join_flush.
    + repeat apply ends_in_order_after; try reflexivity; exact He.
  - intros v _. split.
    + intros pre Hpre Hj. unfold after. cbn [fst map snd app].
      change (pre ++ [Call SaveTranscript; flush_result b; Exit 0])
        with (pre ++ [Call SaveTranscript] ++ [flush_result b; Exit 0]).
      rewrite app_assoc. apply flush_follows_join_plain;
        [now apply flush_follows_join_flush | destruct b; no_flush].
    + unfold ends_in_order, after. cbn [fst snd app map].
      exists [], (flush_result b). split; [reflexivity |].
      split; [apply flush_result_is | reflexivity].
  - intros _ _. split.
    + intros pre Hpre Hj. unfold after, blocked. cbn [fst map snd app].
      now apply flush_follows_join_flush.
    + reflexivity.
Qed.

(** One run of the handler, whatever a pending interrupt starts. *)
Lemma orderly_handler_run (e : env) (k : nat) (t : N) (next : option (N * (N -> plan))) :
  orderly_next next ->
  orderly
    (after [(t, FlagSet); (t, Start (EndThread k)); (t, Call EndSession)]
       (blocking t (Some (t + join_length e k)) next
          (fun u => after [(u, join_back e k)]
                      (flush_plan (flush e (Handler k)) next u)))).
Proof.
  intros Hn.
  apply (blocking_cases
           (fun r => orderly (after [(t, FlagSet); (t, Start (EndThread k));
                                     (t, Call EndSession)] r))).
  - intros s h E. destruct (Hn s h E (N.max t s)) as [HQ He]. split.
    + intros pre Hpre. unfold after. cbn [fst map snd app]. regroup pre.
      apply HQ. apply flush_follows_join_plain; [exact Hpre | no_flush].
    + repeat apply ends_in_order_after; try reflexivity; exact He.
  - intros u _.
    destruct (orderly_flush_plan (flush e (Handler k)) next u Hn) as [HQ He].
    assert (HJ := join_back_is e k). split.
    + intros pre Hpre. unfold after at 1 2. cbn [fst map snd app]. regroup pre.
      apply HQ.
      * apply flush_follows_join_plain; [exact Hpre |].
        destruct HJ as [-> | ->]; no_flush.
      * right. exists (pre ++ [FlagSet]), k, (join_back e k).
        split; [now rewrite <- app_assoc | exact HJ].
    + apply ends_in_order_after; [reflexivity |].
      apply ends_in_order_after; [now destruct HJ as [-> | ->] | exact He].
  - intros _ _. split.
    + intros pre Hpre. unfold after, blocked. cbn [fst map snd app].
      apply flush_follows_join_plain; [exact Hpre | no_flush].
    + reflexivity.
Qed.

Lemma orderly_handler_plan (e : env) (sigs : list N) :
  forall k t, orderly (handler_plan e k sigs t).
Proof.
  induction sigs as [|s rest IH]; intros k t; cbn [handler_plan];
    apply orderly_handler_run; intros s' h E v.
  - discriminate E.
  - injection E as <- <-. apply IH.
Qed.

Lemma orderly_session_plan (e : env) (sigs : list N) : orderly (session_plan e sigs).
Proof.
  unfold session_plan.
  set (next := match sigs with [] => None | s :: rest => Some (s, handler_plan e 0 rest) end).
  assert (Hn : orderly_next next).
  { subst next. intros s h E v. destruct sigs as [|s0 rest]; [discriminate E |].
    injection E as <- <-. apply orderly_handler_plan. }
  apply (blocking_cases
           (fun r => orderly (after [(0, Start WaitThread); (0, Call WaitForSessionEnd)] r))).
  - intros s h E. destruct (Hn s h E (N.max 0 s)) as [HQ He]. split.
    + intros pre Hpre. unfold after. cbn [fst map snd app]. regroup pre.
      apply HQ. apply flush_follows_join_plain; [exact Hpre | no_flush].
    + repeat apply ends_in_order_after; try reflexivity; exact He.
  - intros u _.
    destruct (orderly_flush_plan (flush e Normal) next u Hn) as [HQ He]. split.
    + intros pre Hpre. unfold after at 1 2. cbn [fst map snd app]. regroup pre.
      apply HQ.
      * apply flush_follows_join_plain; [exact Hpre | no_flush].
      * left. exists (pre ++ [Start WaitThread; Call WaitForSessionEnd]).
        now rewrite <- app_assoc.
    + apply ends_in_order_after; [reflexivity |].
      apply ends_in_order_after; [reflexivity | exact He].
  - intros _ _. split.
    + intros pre Hpre. unfold after, blocked. cbn [fst map snd app].
      apply flush_follows_join_plain; [exact Hpre | no_flush].
    + reflexivity.
Qed.

(** *** Every run that can end does *)

Lemma flush_plan_exits (b : behaviour) (next : option (N * (N -> plan))) (u : N) :
  terminates b ->
  (forall s h, next = Some (s, h) -> forall v, exists T, snd (h v) = Some T) ->
  exists T, snd (flush_plan b next u) = Some T.
Proof.
  intros Hb Hn. unfold flush_plan, after. cbn [snd].
  apply (blocking_cases (fun r => exists T, snd r = Some T)).
  - intros s h E. apply (Hn s h E).
  - intros v _. now exists v.
  - intros Hu _. apply terminates_duration in Hb. destruct Hb as [f Hf].
    rewrite Hf in Hu. discriminate Hu.
Qed.

Lemma handler_plan_exits (e : env) :
  (forall k, terminates (flush e (Handler k))) ->
  forall sigs k t, exists T, snd (handler_plan e k sigs t) = Some T.
Proof.
  intros Hfl.
  assert (Hrun : forall k t next,
            (forall s h, next = Some (s, h) -> forall v, exists T, snd (h v) = Some T) ->
            exists T,
              snd (blocking t (Some (t + join_length e k)) next
                     (fun u => after [(u, join_back e k)]
                                 (flush_plan (flush e (Handler k)) next u))) = Some T).
  { intros k t next Hn. apply (blocking_cases (fun r => exists T, snd r = Some T)).
    - intros s h E. apply (Hn s h E).
    - intros u _. unfold after. cbn [snd]. now apply flush_plan_exits.
    - intros Hu. discriminate Hu. }
  induction sigs as [|s rest IH]; intros k t; cbn [handler_plan];
    unfold after at 1; cbn [snd]; apply Hrun; intros s' h E v.
  - discriminate E.
  - injection E as <- <-. apply IH.
Qed.

Lemma session_plan_exits (e : env) (sigs : list N) :
  terminates (flush e Normal) ->
  (forall k, terminates (flush e (Handler k))) ->
  sigs <> [] \/ terminates (wait_for_session_end e) ->
  exists T, snd (session_plan e sigs) = Some T.
Proof.
  intros Hn Hfl Hw. unfold session_plan, after. cbn [snd].
  set (next := match sigs with [] => None | s :: rest => Some (s, handler_plan e 0 rest) end).
  assert (Hnext : forall s h, next = Some (s, h) -> forall v, exists T, snd (h v) = Some T).
  { subst next. intros s h E v. destruct sigs as [|s0 rest]; [discriminate E |].
    injection E as <- <-. now apply handler_plan_exits. }
  apply (blocking_cases (fun r => exists T, snd r = Some T)).
  - intros s h E. apply (Hnext s h E).
  - intros u _. unfold after. cbn [snd]. now apply flush_plan_exits.
  - intros Hu Hnone. destruct Hw as [Hw | Hw].
    + subst next. now destruct sigs.
    + apply terminates_duration in Hw. destruct Hw as [d Hd].
      rewrite Hd in Hu. discriminate Hu.
Qed.

(** *** Runs with interrupts *)




Lemma session_plan_interrupted (e : env) (s : N) (rest : list N) :
  running_at e s ->
  session_plan e (s :: rest) =
  after [(0, Start WaitThread); (0, Call WaitForSessionEnd); (s, Sigint)]
        (handler_plan e 0 rest s).
Proof.
  unfold running_at, session_plan, blocking. intros Hrun.
  assert (E : arrives_first s (duration (wait_for_session_end e)) = true).
  { destruct (duration (wait_for_session_end e)); cbn [arrives_first]; [| reflexivity].
    now apply N.ltb_lt. }
  rewrite E, N.max_0_l. reflexivity.
Qed.

Lemma interruptible_cases (P : proc -> Prop) (until : option N) (next : interrupt)
    (cont : proc -> proc) (p : proc) :
  (forall s h, next = Some (s, h) -> P (h (emit Sigint (advance s p)))) ->
  (forall v, until = Some v -> P (cont (advance v p))) ->
  P (block_forever p) ->
  P (interruptible until next cont p).
Proof.
  intros Hn Hc Hb. unfold interruptible, resume.
  destruct next as [[s h]|]; [destruct (arrives_first s until); [now apply Hn |] |];
    destruct until; auto.
Qed.

Lemma handler_sets_the_flag (e : env) (sigs : list N) :
  forall k p, shutdown_flag (signal_handler e k sigs p) = true.
Proof.
  assert (Hrun : forall k next p,
            (forall s h, next = Some (s, h) -> forall q, shutdown_flag (h q) = true) ->
            shutdown_flag
              (join (EndThread k) (Some 2000) next
                 (save_transcript_on_exit (flush e (Handler k)) next (os_exit 0))
                 (spawn (EndThread k) (force_end e k)
                    (set_shutdown_flag
                       (emit (Print (10 :: 10 :: lit "Ending conversation...")) p)))) = true).
  { intros k next p Hn. unfold join.
    apply (interruptible_cases (fun q => shutdown_flag q = true)).
    - intros s h E. apply (Hn s h E).
    - intros v _. unfold save_transcript_on_exit.
      apply (interruptible_cases (fun q => shutdown_flag q = true)).
      + intros s h E. apply (Hn s h E).
      + intros v' _. destruct (flush e (Handler k));
          cbn [shutdown_flag os_exit emit advance]; now rewrite shutdown_flag_spawn.
      + cbn [shutdown_flag block_forever emit advance]. now rewrite shutdown_flag_spawn.
    - cbn [shutdown_flag block_forever]. now rewrite shutdown_flag_spawn. }
  induction sigs as [|s rest IH]; intros k p; cbn [signal_handler]; apply Hrun;
    intros s' h E q.
  - discriminate E.
  - injection E as <- <-. apply IH.
Qed.

(** What the claims on interrupts read off a run whose first interrupt
    arrives while the session is on. *)
Lemma interrupted_session (e : env) (s : N) (rest : list N) :
  running_at e s ->
  ascending (s :: rest) = true ->
  (forall k, terminates (flush e (Handler k))) ->
  let p := run_session e (s :: rest) in
  let r := handler_plan e 0 rest s in
  stamped p = [(0, Start WaitThread); (0, Call WaitForSessionEnd); (s, Sigint)] ++ fst r
  /\ exit_time p = snd r
  /\ status p = Exited 0
  /\ shutdown_flag p = true
  /\ exists more left, rest = more ++ left /\ shape e 0 s more left r.
Proof.
  intros Hrun Hasc Hfl p r.
  destruct (run_by_plan e (s :: rest)) as (Hst & Hex & Hstatus). fold p in Hst, Hex, Hstatus.
  rewrite (session_plan_interrupted e s rest Hrun) in Hst, Hex, Hstatus.
  destruct (handler_plan_shape e Hfl rest 0%nat s Hasc) as (more & left & E & Hshape).
  fold r in Hshape, Hst, Hex, Hstatus.
  split; [exact Hst |]. split; [exact Hex |]. split; [| split].
  - cbn [after snd] in Hstatus. destruct Hshape as (_ & (f & _ & Hsnd & _) & _).
    now rewrite Hsnd in Hstatus.
  - subst p. rewrite (first_interrupt_taken e s rest Hrun). apply handler_sets_the_flag.
  - now exists more, left.
Qed.

Lemma join_length_le (e : env) (k : nat) : join_length e k <= 2000.
Proof. unfold join_length. destruct (duration (end_session e k)); lia. Qed.

Lemma sigints_run_log (e : env) (k : nat) (t f : N) : sigints (run_log e k t f) = [].
Proof.
  unfold run_log, sigints.
  now destruct (join_back_is e k) as [-> | ->],
               (flush_result_is (flush e (Handler k))) as [-> | [msg ->]].
Qed.

(** C1, amended: the handler has no guard, so the two seconds count from
    the last interrupt that arrives before the exit, not from the first.
    Let the interrupts [s :: more] be those taken, [t] the last of them and
    [n] its rank.  Whatever [end_session()] does (return, raise, hang), the
    [n]-th run of the handler has its join back at [u], at most 2000 ms
    after [t], calls the transcript write then, and exits with [os._exit(0)]
    when the write is back, [f] ms later; the interrupts not taken are those
    that arrive when the process is gone.  When no other interrupt arrives
    before the first run is over, the process is gone [min(d, 2000) + f] ms
    after the interrupt. *)
Theorem interrupt_exits_within_timeout (e : env) (s : N) (rest : list N) :
  running_at e s ->
  ascending (s :: rest) = true ->
  (forall k, terminates (flush e (Handler k))) ->
  let p := run_session e (s :: rest) in
  exists more left f,
    rest = more ++ left
    /\ taken p = s :: more
    /\ duration (flush e (Handler (List.length more))) = Some f
    /\ (let n := List.length more in
        let t := last more s in
        let u := t + join_length e n in
        exit_time p = Some (u + f)
        /\ t <= u <= t + 2000
        /\ (forall s', In s' left -> u + f <= s')
        /\ exists l,
             stamped p =
             l ++ [ (t, FlagSet); (t, Start (EndThread n)); (t, Call EndSession);
                    (u, join_back e n); (u, Call SaveTranscript);
                    (u + f, flush_result (flush e (Handler n))); (u + f, Exit 0) ])
    /\ supervisor_state p = Terminated
    /\ status p = Exited 0
    /\ (forall f0, duration (flush e (Handler 0)) = Some f0 ->
          (forall s', In s' rest -> s + join_length e 0 + f0 <= s') ->
          more = [] /\ exit_time p = Some (s + join_length e 0 + f0)).
Proof.
  intros Hrun Hasc Hfl p.
  destruct (interrupted_session e s rest Hrun Hasc Hfl)
    as (Hst & Hex & Hstatus & _ & more & left & E & Hshape).
  fold p in Hst, Hex, Hstatus.
  destruct Hshape as (Hs & (f & Hf & Hsnd & Hleft & l & Hl & _) & _).
  cbn [Nat.add] in Hf, Hsnd, Hleft, Hl.
  exists more, left, f. split; [exact E |].
  split; [now rewrite taken_stamped, Hst, sigints_app, Hs |].
  split; [exact Hf |]. split; [| split; [| split]].
  - cbn zeta. split; [now rewrite Hex, Hsnd |].
    split; [pose proof (join_length_le e (List.length more)); lia |].
    split; [intros s' Hin; now apply (proj1 (Forall_forall _ _) Hleft) |].
    exists ([(0, Start WaitThread); (0, Call WaitForSessionEnd); (s, Sigint)] ++ l).
    now rewrite Hst, Hl, app_assoc.
  - unfold supervisor_state. now rewrite Hstatus.
  - exact Hstatus.
  - intros f0 Hf0 Hall.
    rewrite (handler_plan_alone e 0 rest s f0 Hf0 Hall) in Hs, Hex.
    cbn [fst snd] in Hs, Hex. rewrite sigints_run_log in Hs. now subst more.
Qed.

Lemma interrupt_exits_within_timeout_witness :
  running_at silent_remote 700
  /\ ascending [700; 800] = true
  /\ (forall k, terminates (flush silent_remote (Handler k)))
  /\ exists more left f,
       [800] = more ++ left
       /\ taken (run_session silent_remote [700; 800]) = 700 :: more
       /\ duration (flush silent_remote (Handler (List.length more))) = Some f.
Proof.
  assert (H1 : running_at silent_remote 700) by exact I.
  assert (H2 : ascending [700; 800] = true) by reflexivity.
  assert (H3 : forall k, terminates (flush silent_remote (Handler k)))
    by (intros k; cbv; discriminate).
  split; [exact H1 |]. split; [exact H2 |]. split; [exact H3 |].
  destruct (interrupt_exits_within_timeout silent_remote 700 [800] H1 H2 H3)
    as (more & left & f & E & Ht & Hf & _).
  exists more, left, f. split; [exact E |]. split; [exact Ht | exact Hf].
Defined.



(** C9, amended: each run of the shutdown code attempts its flush directly
    after its own join is back, which in the handler is
    [end_thread.join(timeout=2.0)] for the [end_session()] thread that run
    started (the thread over, or given up at the timeout), and the process
    exits only directly after a flush has come back, once, with status 0.
    Every run in which the transcript writes come back and the session ends
    or is interrupted does exit. *)
Theorem flush_between_end_session_and_exit (e : env) (sigs : list N) :
  let p := run_session e sigs in
  flush_follows_join (milestones p)
  /\ (forall c, status p = Exited c ->
        c = 0%Z /\ exits_after_flush (milestones p) /\ count is_exit p = 1%nat)
  /\ (terminates (flush e Normal) ->
      (forall k, terminates (flush e (Handler k))) ->
      sigs <> [] \/ terminates (wait_for_session_end e) ->
      status p = Exited 0).
Proof.
  intros p.
  destruct (run_by_plan e sigs) as (Hst & _ & Hstatus). fold p in Hst, Hstatus.
  destruct (orderly_session_plan e sigs) as [HQ He].
  assert (Hms : milestones p = map snd (fst (session_plan e sigs)))
    by now rewrite milestones_stamped, Hst.
  split; [| split].
  - rewrite Hms. apply (HQ [] flush_follows_join_nil).
  - intros c Hc. rewrite Hc in Hstatus. unfold ends_in_order in He.
    destruct (snd (session_plan e sigs)); [| discriminate Hstatus].
    injection Hstatus as ->. split; [reflexivity |].
    rewrite <- Hms in He. split; [exact He |].
    rewrite count_occ by auto with quiet.
    destruct He as (l0 & r & -> & Hr & H0). rewrite occ_app, H0.
    now destruct Hr as [-> | [msg ->]].
  - intros Hn Hfl Hw. destruct (session_plan_exits e sigs Hn Hfl Hw) as [T HT].
    now rewrite HT in Hstatus.
Qed.

(** *** Where the claims on interrupts fail *)

Lemma ascending_burst (m : nat) : forall s, ascending (s :: burst s m) = true.
Proof.
  induction m as [|m IH]; intros s; [reflexivity |].
  cbn [burst]. change (ascending (s :: s + 1000 :: burst (s + 1000) m))
    with ((s <=? s + 1000) && ascending (s + 1000 :: burst (s + 1000) m)).
  rewrite IH, andb_true_r. apply N.leb_le. lia.
Qed.

Lemma last_burst (m : nat) : forall s, last (burst s m) s = s + 1000 * N.of_nat m.
Proof.
  induction m as [|m IH]; intros s; [cbn; lia |].
  cbn [burst]. rewrite last_cons, IH. lia.
Qed.

Lemma burst_split (m : nat) :
  forall s took x left, burst s m = took ++ x :: left -> x = last took s + 1000.
Proof.
  induction m as [|m IH]; intros s took x left E; cbn [burst] in E.
  - now destruct took.
  - destruct took as [|a took]; cbn [app] in E; injection E as <- E; [reflexivity |].
    rewrite last_cons. now apply (IH _ _ _ left).
Qed.

(** C1, as stated, fails: the exit is 2 s (and the transcript write) after
    the last interrupt taken, so a second interrupt 100 ms after the first
    moves the exit by 100 ms, five interrupts 1.9 s apart move it by 7.6 s,
    and no constant bounds the distance from the first interrupt, even with
    a transcript write that takes no time; and if the transcript write never
    comes back neither does the handler. *)
Lemma later_interrupts_postpone_the_exit :
  exit_time (run_session silent_remote [700]) = Some 2750
  /\ exit_time (run_session silent_remote [700; 800]) = Some 2850
  /\ exit_time (run_session silent_remote [700; 2600; 4500; 6400; 8300]) = Some 10350
  /\ exit_time (run_session stuck_writer [700]) = None
  /\ status (run_session stuck_writer [700]) = Blocked
  /\ ~ (exists eps, exits_within_timeout eps).
Proof.
  do 5 (split; [vm_compute; reflexivity |]).
  intros [eps H].
  remember (S (N.to_nat (eps / 1000))) as m eqn:Em.
  assert (H1 : running_at instant_writer 0) by exact I.
  assert (H2 : ascending (0 :: burst 0 m) = true) by apply ascending_burst.
  assert (H3 : forall k, terminates (flush instant_writer (Handler k)))
    by (intros k; cbv; discriminate).
  destruct (H instant_writer 0 (burst 0 m) H1 H2) as (T & HT & Hle).
  { intros k. exists 0. split; [reflexivity | lia]. }
  destruct (interrupted_session instant_writer 0 (burst 0 m) H1 H2 H3)
    as (_ & Hex & _ & _ & more & left & E & Hshape).
  destruct Hshape as (_ & (f & Hf & Hsnd & Hleft & _) & _).
  rewrite Hex, Hsnd in HT. injection HT as <-.
  injection Hf as <-.
  assert (HJ : forall k, join_length instant_writer k = 2000) by reflexivity.
  rewrite HJ in Hle, Hleft.
  destruct left as [|x left].
  - rewrite app_nil_r in E. subst more. rewrite last_burst in Hle.
    assert (Hm : N.of_nat m = eps / 1000 + 1)
      by (subst m; rewrite Nat2N.inj_succ, N2Nat.id; lia).
    rewrite Hm in Hle.
    pose proof (N.mod_lt eps 1000 ltac:(lia)).
    pose proof (N.div_mod eps 1000 ltac:(lia)). lia.
  - apply burst_split in E. inversion Hleft as [|? ? Hx _]. lia.
Qed.

(** C9, as stated, fails: with interrupts at 700 ms and 2710 ms the first
    run of the handler attempts its flush at 2700 ms, and the
    [end_session()] attempt of the second run starts after it, at 2710 ms,
    to be given up at 4710 ms. *)
Lemma flush_precedes_a_later_end_session :
  ~ flush_after_end_session (events (run_session silent_remote [700; 2710]))
  /\ In (2700, Call SaveTranscript) (trace (run_session silent_remote [700; 2710]))
  /\ In (2710, Call EndSession) (trace (run_session silent_remote [700; 2710]))
  /\ In (4710, JoinTimeout (EndThread 1)) (trace (run_session silent_remote [700; 2710])).
Proof.
  assert (E : trace (run_session silent_remote [700; 2710]) =
              [ (0, Start WaitThread); (0, Call WaitForSessionEnd); (700, Sigint);
                (700, Print (10 :: 10 :: lit "Ending conversation..."));
                (700, FlagSet); (700, Start (EndThread 0)); (700, Call EndSession);
                (2700, JoinTimeout (EndThread 0)); (2700, Call SaveTranscript);
                (2710, Sigint);
                (2710, Print (10 :: 10 :: lit "Ending conversation..."));
                (2710, FlagSet); (2710, Start (EndThread 1)); (2710, Call EndSession);
                (4710, JoinTimeout (EndThread 1)); (4710, Call SaveTranscript);
                (4760, Done SaveTranscript); (4760, Exit 0) ])
    by (vm_compute; reflexivity).
  unfold events. rewrite E. cbn [map snd]. split.
  - intros H.
    destruct (H [ Start WaitThread; Call WaitForSessionEnd; Sigint;
                  Print (10 :: 10 :: lit "Ending conversation...");
                  FlagSet; Start (EndThread 0); Call EndSession;
                  JoinTimeout (EndThread 0) ]
                [ Sigint; Print (10 :: 10 :: lit "Ending conversation...");
                  FlagSet; Start (EndThread 1); Call EndSession;
                  JoinTimeout (EndThread 1); Call SaveTranscript;
                  Done SaveTranscript; Exit 0 ]
                eq_refl (Call EndSession)) as [H1 _]; [cbn [In]; auto 10 |].
    discriminate H1.
  - cbn [In]. repeat split; auto 20.
Qed.

End ShutdownFacts.

(* ------------------------------------------------------------------ *)
(** ** Audio gate                                                       *)
(* ------------------------------------------------------------------ *)

Module AudioGateFacts.

Import AudioGate.
Local Open Scope Q_scope.

Lemma mean_square_nonneg (f : AudioFrame) : 0 <= mean_square f.
Proof.
  unfold mean_square. destruct (samples f) as [|x l] eqn:E; [apply Qle_refl |].
  rewrite <- E. clear E.
  assert (Hs : (0 <= fold_right (fun s a => s * s + a) 0 (samples f))%Z).
  { induction (samples f) as [|y l' IH]; cbn [fold_right]; [lia |].
    pose proof (Z.square_nonneg y). lia. }
  apply Qmult_le_0_compat.
  - unfold Qle; cbn. lia.
  - apply Qinv_le_0_compat. unfold Qle; cbn. lia.
Qed.

Lemma mean_energy_nonneg (g : gate) : 0 <= energy_sum g -> 0 <= mean_energy g.
Proof.
  intros H. unfold mean_energy. destruct (frames_seen g =? 0)%N; [apply Qle_refl |].
  apply Qmult_le_0_compat; [exact H |].
  apply Qinv_le_0_compat. unfold Qle; cbn. lia.
Qed.

Section Estimator.

Variable energy : AudioFrame -> Q.

Lemma is_speech_iff (g : gate) (f : AudioFrame) :
  is_speech energy g f = true <-> EffectiveThreshold g < energy f.
Proof.
  unfold is_speech. rewrite negb_true_iff, <- not_true_iff_false, Qle_bool_iff.
  split; [apply Qnot_le_lt | apply Qlt_not_le].
Qed.

(** Outside [Listening] nothing is handed to the transport. *)
Lemma silent_outside_listening (g : gate) (t : N) (i : input) :
  state (settle t g) <> Listening -> snd (step energy t i g) = [].
Proof.
  unfold step. destruct i; destruct (state (settle t g)); intros H;
    try reflexivity; congruence.
Qed.

(** What a step forwards is the frame it was given, or nothing. *)
Lemma forwards_its_own_frame (g : gate) (t : N) (i : input) :
  snd (step energy t i g) = [] \/
  exists f, i = Captured f /\ snd (step energy t i g) = [f].
Proof.
  unfold step. destruct i as [f| | |]; destruct (state (settle t g)); cbn [snd]; auto.
  destruct (is_speech energy (settle t g) f); eauto.
Qed.

(** C4: a frame delivered while the agent speaks or during the cooldown
    after it is not forwarded, whatever its energy is, and the gate is as
    it was; a step that forwards a frame finds the gate in [Listening]. *)
Theorem muted_while_agent_speaks (g : gate) (t : N) (f : AudioFrame) :
  state (settle t g) = AgentSpeaking \/ state (settle t g) = CooldownAfterAgent ->
  step energy t (Captured f) g = (settle t g, [])
  /\ (forall i, snd (step energy t i g) <> [] -> state (settle t g) = Listening).
Proof.
  intros H. split.
  - unfold step. now destruct H as [-> | ->].
  - intros i Hi. destruct (state (settle t g)) eqn:E; try reflexivity;
      contradiction Hi; apply silent_outside_listening; rewrite E; discriminate.
Qed.

(** C5: in [Listening] a frame is forwarded exactly when its energy is
    above [max(volume_threshold, k * NoiseFloor)]; otherwise it is dropped,
    and the gate keeps nothing of it: the gate after the step is the gate
    before it, and a step never forwards another frame than its own. *)
Theorem listening_forwards_above_threshold (g : gate) (t : N) (f : AudioFrame) :
  state (settle t g) = Listening ->
  let g' := settle t g in
  (snd (step energy t (Captured f) g) = [f] <-> EffectiveThreshold g' < energy f)
  /\ (snd (step energy t (Captured f) g) = [] <-> energy f <= EffectiveThreshold g')
  /\ fst (step energy t (Captured f) g) = g'
  /\ EffectiveThreshold g' ==
       Qmax (volume_threshold (cfg g')) (noise_multiplier (cfg g') * NoiseFloor g')
  /\ (forall i, snd (step energy t i g) = [] \/
                exists f', i = Captured f' /\ snd (step energy t i g) = [f']).
Proof.
  intros H g'. subst g'.
  assert (Hstep : step energy t (Captured f) g =
            (settle t g, if is_speech energy (settle t g) f then [f] else []))
    by (unfold step; now rewrite H).
  rewrite Hstep. cbn [fst snd]. set (g' := settle t g).
  pose proof (is_speech_iff g' f) as Hs.
  split; [| split; [| split; [reflexivity | split; [reflexivity |]]]].
  - destruct (is_speech energy g' f).
    + split; [intros _; now apply Hs | reflexivity].
    + split; [discriminate | intros Hlt; apply Hs in Hlt; discriminate].
  - destruct (is_speech energy g' f).
    + split; [discriminate |].
      intros Hle. assert (Hlt : EffectiveThreshold g' < energy f) by now apply Hs.
      now apply Qlt_not_le in Hlt.
    + split; [intros _ | reflexivity].
      apply Qnot_lt_le. intros Hlt. apply Hs in Hlt. discriminate.
  - intros i. apply forwards_its_own_frame.
Qed.

(** *** Calibration *)

Hypothesis energy_nonneg : forall f, 0 <= energy f.

Lemma calibrated_once_open (c : config) (t0 : N) :
  calibrated_once c t0 (open_session c t0).
Proof.
  unfold calibrated_once, open_session; cbn.
  repeat split; try apply Qle_refl. left. auto.
Qed.

Lemma calibrated_once_settle (c : config) (t0 t : N) (g : gate) :
  calibrated_once c t0 g -> calibrated_once c t0 (settle t g).
Proof.
  intros Hg. pose proof Hg as (Hc & Hs & Hn & H). unfold settle.
  destruct (state g) eqn:E; try exact Hg.
  - destruct (_ <=? t)%N; [| exact Hg].
    unfold calibrated_once, finish_calibration; cbn.
    repeat split; auto using mean_energy_nonneg.
    right. split; [discriminate |].
    destruct H as [(_ & _ & ->) | (Hst & _)]; [reflexivity | congruence].
  - destruct (_ <=? t)%N; [| exact Hg].
    unfold calibrated_once, with_state; cbn. repeat split; auto.
    right. split; [discriminate |].
    destruct H as [(Hst & _) | (_ & Hcal)]; [congruence | exact Hcal].
Qed.

Lemma calibrated_once_step (c : config) (t0 t : N) (i : input) (g : gate) :
  calibrated_once c t0 g -> calibrated_once c t0 (fst (step energy t i g)).
Proof.
  intros H. apply (calibrated_once_settle c t0 t) in H.
  unfold step. pose proof H as (Hc & Hs & Hn & Hd).
  assert (Hmoved : forall s, s <> Calibrating -> state (settle t g) <> Calibrating ->
            calibrated_once c t0 (with_state s t (settle t g))).
  { intros s Hs' Hst. unfold calibrated_once, with_state; cbn. repeat split; auto.
    right. split; [exact Hs' |].
    destruct Hd as [(Hst' & _) | (_ & Hcal)]; [congruence | exact Hcal]. }
  destruct i as [f| | |]; destruct (state (settle t g)) eqn:E; cbn [fst];
    try exact H; try (apply Hmoved; congruence).
  unfold calibrated_once, accumulate; cbn. rewrite E.
  split; [exact Hc |]. split; [| split; [exact Hn |]].
  - rewrite <- (Qplus_0_r 0). apply Qplus_le_compat; auto.
  - destruct Hd as [(_ & Hsince & Hcal) | (Hst & _)]; [left; auto | congruence].
Qed.

Lemma calibrated_once_run (c : config) (t0 : N) (ins : list (N * input)) (g : gate) :
  calibrated_once c t0 g -> calibrated_once c t0 (fst (run energy ins g)).
Proof.
  revert g. induction ins as [|[t i] ins IH]; intros g H; cbn [run]; [exact H |].
  pose proof (calibrated_once_step c t0 t i g H) as H1.
  destruct (step energy t i g) as [g1 out1]. cbn [fst] in H1.
  specialize (IH g1 H1). destruct (run energy ins g1) as [g2 out2]. exact IH.
Qed.

(** Before the window is over the gate stays in [Calibrating] and is silent. *)
Lemma still_calibrating (c : config) (t0 : N) (ins : list (N * input)) (g : gate) :
  cfg g = c -> state g = Calibrating -> since g = t0 ->
  Forall (fun ti => (fst ti < t0 + calibration_duration c)%N) ins ->
  let r := run energy ins g in
  state (fst r) = Calibrating /\ since (fst r) = t0 /\ cfg (fst r) = c /\ snd r = [].
Proof.
  intros Hc Hst Hsince Hall. revert g Hc Hst Hsince.
  induction Hall as [|[t i] ins Ht _ IH]; intros g Hc Hst Hsince; cbn [run]; [auto |].
  cbn [fst] in Ht.
  assert (Hsettle : settle t g = g).
  { unfold settle. rewrite Hst, Hsince, Hc.
    destruct (N.leb_spec (t0 + calibration_duration c) t); [lia | reflexivity]. }
  assert (Hstep : let s := step energy t i g in
            cfg (fst s) = c /\ state (fst s) = Calibrating /\ since (fst s) = t0
            /\ snd s = []).
  { unfold step. rewrite Hsettle, Hst. destruct i; cbn; auto. }
  destruct (step energy t i g) as [g1 out1]. cbn [fst snd] in Hstep.
  destruct Hstep as (Hc1 & Hst1 & Hs1 & ->).
  specialize (IH g1 Hc1 Hst1 Hs1).
  destruct (run energy ins g1) as [g2 out2]. cbn [fst snd app] in *. exact IH.
Qed.

(** Once left, [Calibrating] is never entered again. *)
Lemma never_back_step (t : N) (i : input) (g : gate) :
  state g <> Calibrating -> state (fst (step energy t i g)) <> Calibrating.
Proof.
  intros H.
  assert (Hs : state (settle t g) <> Calibrating).
  { unfold settle. destruct (state g) eqn:E; rewrite ?E; try discriminate;
      [congruence |].
    destruct (_ <=? t)%N; [discriminate | now rewrite E]. }
  unfold step. destruct i; destruct (state (settle t g)) eqn:E; cbn [fst];
    rewrite ?E; try discriminate; congruence.
Qed.

Lemma never_back_run (ins : list (N * input)) (g : gate) :
  state g <> Calibrating -> state (fst (run energy ins g)) <> Calibrating.
Proof.
  revert g. induction ins as [|[t i] ins IH]; intros g H; cbn [run]; [exact H |].
  pose proof (never_back_step t i g H) as H1.
  destruct (step energy t i g) as [g1 out1]. cbn [fst] in H1.
  specialize (IH g1 H1). now destruct (run energy ins g1).
Qed.

(** An input at or after the end of the window finds the calibration done. *)
Lemma calibration_over (c : config) (t0 : N) (ins : list (N * input)) (g : gate) :
  calibrated_once c t0 g ->
  Exists (fun ti => (t0 + calibration_duration c <= fst ti)%N) ins ->
  state (fst (run energy ins g)) <> Calibrating.
Proof.
  intros Hg Hex. revert g Hg.
  induction Hex as [[t i] ins Ht | [t i] ins _ IH]; intros g Hg; cbn [run].
  - cbn [fst] in Ht.
    assert (H1 : state (fst (step energy t i g)) <> Calibrating).
    { destruct Hg as (Hc & _ & _ & H).
      assert (Hs : state (settle t g) <> Calibrating).
      { unfold settle. destruct H as [(Hst & Hsince & _) | (Hst & _)].
        - rewrite Hst, Hsince, Hc.
          destruct (N.leb_spec (t0 + calibration_duration c) t); [discriminate | lia].
        - destruct (state g) eqn:E; rewrite ?E; try discriminate;
            [congruence |].
          destruct (_ <=? t)%N; [discriminate | now rewrite E]. }
      unfold step. destruct i; destruct (state (settle t g)) eqn:E; cbn [fst];
        rewrite ?E; try discriminate; congruence. }
    destruct (step energy t i g) as [g1 out1]. cbn [fst] in H1.
    pose proof (never_back_run ins g1 H1). now destruct (run energy ins g1).
  - pose proof (calibrated_once_step c t0 t i g Hg) as H1.
    destruct (step energy t i g) as [g1 out1]. cbn [fst] in H1.
    specialize (IH g1 H1). now destruct (run energy ins g1).
Qed.

(** *** What the calibration produces *)

Lemma after_hearing_sums (fs : list AudioFrame) :
  forall g,
  energy_sum (after_hearing energy fs g) = fold_left Qplus (map energy fs) (energy_sum g)
  /\ frames_seen (after_hearing energy fs g) = (frames_seen g + N.of_nat (List.length fs))%N.
Proof.
  induction fs as [|f fs IH]; intros g; cbn [after_hearing fold_left map List.length].
  - split; [reflexivity | lia].
  - destruct (IH (accumulate energy f g)) as [H1 H2]. unfold after_hearing in H1, H2.
    rewrite H1, H2. cbn [accumulate energy_sum frames_seen]. split; [reflexivity | lia].
Qed.

Lemma mean_after_hearing (c : config) (t0 : N) (fs : list AudioFrame) :
  mean_energy (after_hearing energy fs (open_session c t0)) = mean_of (map energy fs).
Proof.
  unfold mean_energy. destruct (after_hearing_sums fs (open_session c t0)) as [-> ->].
  cbn [open_session energy_sum frames_seen]. rewrite N.add_0_l.
  destruct fs as [|f fs]; [reflexivity |].
  cbn [List.length map mean_of].
  replace (N.of_nat (S (List.length fs)) =? 0)%N with false
    by (symmetry; apply N.eqb_neq; lia).
  rewrite nat_N_Z, length_map. reflexivity.
Qed.

(** Outside calibration no input changes the noise floor. *)
Lemma noise_floor_kept_step (t : N) (i : input) (g : gate) :
  state g <> Calibrating -> NoiseFloor (fst (step energy t i g)) = NoiseFloor g.
Proof.
  intros H.
  assert (Hs : NoiseFloor (settle t g) = NoiseFloor g /\ state (settle t g) <> Calibrating).
  { unfold settle. destruct (state g) eqn:E; [contradiction | | |];
      try (split; [reflexivity | congruence]).
    destruct (_ <=? t)%N; [cbn; split; [reflexivity | discriminate] |].
    split; [reflexivity | congruence]. }
  destruct Hs as [Hn Hst]. unfold step.
  destruct i; destruct (state (settle t g)); cbn [fst with_state NoiseFloor accumulate];
    congruence.
Qed.

Lemma noise_floor_kept (ins : list (N * input)) :
  forall g, state g <> Calibrating -> NoiseFloor (fst (run energy ins g)) = NoiseFloor g.
Proof.
  induction ins as [|[t i] ins IH]; intros g H; cbn [run]; [reflexivity |].
  pose proof (noise_floor_kept_step t i g H) as H1.
  pose proof (never_back_step t i g H) as H2.
  destruct (step energy t i g) as [g1 out1]. cbn [fst] in H1, H2.
  specialize (IH g1 H2). destruct (run energy ins g1) as [g2 out2]. cbn [fst] in *.
  congruence.
Qed.

(** The noise floor a calibration produces is the mean energy of the
    frames heard during the window. *)
Lemma calibration_result (c : config) (t0 : N) (ins : list (N * input)) :
  forall g, cfg g = c -> state g = Calibrating -> since g = t0 ->
  Exists (fun ti => (t0 + calibration_duration c <= fst ti)%N) ins ->
  NoiseFloor (fst (run energy ins g)) =
  mean_energy (after_hearing energy (heard (t0 + calibration_duration c) ins) g).
Proof.
  induction ins as [|[t i] ins IH]; intros g Hc Hst Hsince Hex; [inversion Hex |].
  cbn [run heard]. destruct (N.ltb_spec t (t0 + calibration_duration c)) as [Ht | Ht].
  - assert (Hsettle : settle t g = g).
    { unfold settle. rewrite Hst, Hsince, Hc.
      destruct (N.leb_spec (t0 + calibration_duration c) t); [lia | reflexivity]. }
    assert (Hex' : Exists (fun ti => (t0 + calibration_duration c <= fst ti)%N) ins).
    { inversion Hex as [? ? H | ? ? H]; [cbn [fst] in H; lia | exact H]. }
    unfold step. rewrite Hsettle, Hst.
    destruct i as [f| | |];
      [ specialize (IH (accumulate energy f g) Hc Hst Hsince Hex');
        destruct (run energy ins (accumulate energy f g)) as [g2 out2]
      | specialize (IH g Hc Hst Hsince Hex'); destruct (run energy ins g) as [g2 out2] .. ];
      exact IH.
  - cbn [after_hearing fold_left].
    assert (Hsettle : settle t g = finish_calibration t g).
    { unfold settle. rewrite Hst, Hsince, Hc.
      destruct (N.leb_spec (t0 + calibration_duration c) t); [reflexivity | lia]. }
    assert (H1 : NoiseFloor (fst (step energy t i g)) = mean_energy g
                 /\ state (fst (step energy t i g)) <> Calibrating).
    { unfold step. rewrite Hsettle. destruct i; cbn; split; reflexivity || discriminate. }
    destruct H1 as [H1 H2].
    pose proof (noise_floor_kept ins (fst (step energy t i g)) H2) as H3.
    destruct (step energy t i g) as [g1 out1]. cbn [fst] in *.
    destruct (run energy ins g1) as [g2 out2]. cbn [fst] in *. congruence.
Qed.

(** C6: a session is calibrated once: the gate leaves [Calibrating] at
    the first input that comes [calibration_duration] (2000 ms in the demo)
    or more after the start, not before, and never comes back to it.  It
    leaves it for [Listening], with the noise floor set at that moment to
    the mean energy of the frames captured during the window (0 when there
    were none), which is not negative and stays as it is from then on; as
    long as the gate calibrates nothing is forwarded. *)
Theorem calibration_runs_once (c : config) (t0 : N) (ins : list (N * input)) :
  let r := run energy ins (open_session c t0) in
  (calibrations (fst r) <= 1)%nat
  /\ (state (fst r) = Calibrating <-> calibrations (fst r) = 0%nat)
  /\ 0 <= NoiseFloor (fst r)
  /\ (Forall (fun ti => (fst ti < t0 + calibration_duration c)%N) ins ->
      state (fst r) = Calibrating /\ snd r = [])
  /\ (Exists (fun ti => (t0 + calibration_duration c <= fst ti)%N) ins ->
      state (fst r) <> Calibrating /\ calibrations (fst r) = 1%nat
      /\ NoiseFloor (fst r) =
         mean_of (map energy (heard (t0 + calibration_duration c) ins)))
  /\ (forall g t, state g = Calibrating -> state (settle t g) <> Calibrating ->
      state (settle t g) = Listening /\ NoiseFloor (settle t g) = mean_energy g)
  /\ (forall g t i, state (settle t g) = Calibrating -> snd (step energy t i g) = [])
  /\ (forall k, calibration_duration (demo_config k) = 2000%N).
Proof.
  intros r.
  pose proof (calibrated_once_run c t0 ins _ (calibrated_once_open c t0)) as H.
  fold r in H. destruct H as (_ & _ & Hn & H).
  assert (Hiff : state (fst r) = Calibrating <-> calibrations (fst r) = 0%nat).
  { destruct H as [(Hst & _ & Hcal) | (Hst & Hcal)]; split; intros; auto;
      [congruence | rewrite Hcal in *; discriminate]. }
  split; [destruct H as [(_ & _ & ->) | (_ & ->)]; lia |].
  split; [exact Hiff |]. split; [exact Hn |].
  split; [| split; [| split; [| split]]].
  - intros Hall.
    destruct (still_calibrating c t0 ins (open_session c t0)
                eq_refl eq_refl eq_refl Hall) as (Hst & _ & _ & Hout).
    now split.
  - intros Hex.
    pose proof (calibration_over c t0 ins _ (calibrated_once_open c t0) Hex) as Hst.
    fold r in Hst. split; [exact Hst |].
    split; [destruct H as [(Hst' & _) | (_ & Hcal)]; [congruence | exact Hcal] |].
    subst r.
    rewrite (calibration_result c t0 ins (open_session c t0) eq_refl eq_refl eq_refl Hex).
    apply mean_after_hearing.
  - intros g t Hst Hout. unfold settle in *. rewrite Hst in *.
    destruct (_ <=? t)%N; [split; reflexivity | contradiction].
  - intros g t i Hst. apply silent_outside_listening. rewrite Hst. discriminate.
  - reflexivity.
Qed.

End Estimator.

Lemma muted_while_agent_speaks_witness :
  let g := with_state AgentSpeaking 2500 (open_session (demo_config 3) 0) in
  (state (settle 2600 g) = AgentSpeaking \/ state (settle 2600 g) = CooldownAfterAgent)
  /\ step mean_square 2600 (Captured (mkFrame [9000; -9000]%Z)) g = (settle 2600 g, []).
Proof.
  intros g.
  assert (H : state (settle 2600 g) = AgentSpeaking \/
              state (settle 2600 g) = CooldownAfterAgent) by (left; reflexivity).
  split; [exact H |].
  exact (proj1 (muted_while_agent_speaks mean_square g 2600 (mkFrame [9000; -9000]%Z) H)).
Defined.

Lemma listening_forwards_above_threshold_witness :
  let g := with_state Listening 2000 (open_session (demo_config 3) 0) in
  state (settle 2100 g) = Listening
  /\ fst (step mean_square 2100 (Captured (mkFrame [1; -1]%Z)) g) = settle 2100 g.
Proof.
  intros g.
  assert (H : state (settle 2100 g) = Listening) by reflexivity.
  split; [exact H |].
  exact (proj1 (proj2 (proj2
    (listening_forwards_above_threshold mean_square g 2100 (mkFrame [1; -1]%Z) H)))).
Defined.

Lemma calibration_runs_once_witness :
  (forall f, 0 <= mean_square f)
  /\ (calibrations
        (fst (run mean_square
                [(100%N, Captured (mkFrame [3; -4]%Z)); (2000%N, Tick)]
                (open_session (demo_config 3) 0))) <= 1)%nat.
Proof.
  split; [exact mean_square_nonneg |].
  exact (proj1 (calibration_runs_once mean_square mean_square_nonneg
                  (demo_config 3) 0
                  [(100%N, Captured (mkFrame [3; -4]%Z)); (2000%N, Tick)])).
Defined.

End AudioGateFacts.

(* ------------------------------------------------------------------ *)
(** ** Dashboard: cards, time stamps and requests                       *)
(* ------------------------------------------------------------------ *)

Module DashboardFacts.

Import ControlTower ControlTowerFacts Dashboard.
Local Open Scope list_scope.
Local Open Scope Z_scope.
Local Open Scope string_scope.

Ltac by_division :=
  repeat match goal with
         | |- context [Z.ltb ?a ?b] => destruct (Z.ltb_spec a b)
         end;
  Z.to_euclidean_division_equations; try lia.

Lemma to_double_near (x : Z) :
  Z.abs (to_double x - x) <= 1 /\ (Z.abs x <= 2 ^ 53 -> to_double x = x).
Proof.
  unfold to_double. destruct (Z.leb_spec (Z.abs x) (2 ^ 53)) as [H | H].
  - split; [lia | reflexivity].
  - split; [| lia]. destruct (Z.even x); [lia |]. destruct (x mod 4 =? 1)%Z; lia.
Qed.

(** What [getTimeAgo] shows, for a current time that is a time value.  A
    date that does not parse, or lies outside the range of time values,
    gives "NaN day ago".  Otherwise let [d] be the difference as the double
    the code computes, which is the difference itself up to 2^53 ms and at
    most 1 ms off beyond: under a minute (future dates included) the text is
    "Just now"; then 1 to 59 minutes; then "1 hour ago" and 2 to 23 "hours";
    then "1 day ago" and 2 or more "days".  The number shown is the floor of
    [d] in that unit, and never 0. *)
Theorem getTimeAgo_ranges (now : Z) (parsed : option Z) :
  Z.abs now <= 8640000000000000 ->
  match getTime parsed with
  | None => getTimeAgo now parsed = "NaN day ago"
  | Some date =>
      let d := to_double (now - date) in
      Z.abs date <= 8640000000000000
      /\ Z.abs (now - date) < 2 ^ 54
      /\ Z.abs (d - (now - date)) <= 1
      /\ (Z.abs (now - date) <= 2 ^ 53 -> d = now - date)
      /\ ((d < 60000 /\ getTimeAgo now parsed = "Just now")
          \/ (60000 <= d < 3600000 /\ 1 <= d / 60000 <= 59
              /\ getTimeAgo now parsed = show (d / 60000) ++ " min ago")
          \/ (3600000 <= d < 7200000 /\ getTimeAgo now parsed = "1 hour ago")
          \/ (7200000 <= d < 86400000 /\ 2 <= d / 3600000 <= 23
              /\ getTimeAgo now parsed = show (d / 3600000) ++ " hours ago")
          \/ (86400000 <= d < 172800000 /\ getTimeAgo now parsed = "1 day ago")
          \/ (172800000 <= d /\ 2 <= d / 86400000
              /\ getTimeAgo now parsed = show (d / 86400000) ++ " days ago"))
  end.
Proof.
  intros Hnow. unfold getTimeAgo.
  destruct (getTime parsed) as [date|] eqn:E; [| reflexivity].
  cbn [minus floor_div option_map less greater template].
  set (d := to_double (now - date)).
  assert (Hdate : Z.abs date <= 8640000000000000).
  { unfold getTime in E. destruct parsed as [t|]; [| discriminate E].
    destruct (Z.leb_spec (Z.abs t) 8640000000000000); [| discriminate E].
    now injection E as <-. }
  split; [exact Hdate |].
  split; [change (2 ^ 54) with 18014398509481984; lia |].
  split; [apply to_double_near | split; [apply to_double_near |]].
  destruct (Z.ltb_spec (d / 60000) 1) as [H1 | H1].
  { left. split; [by_division | reflexivity]. }
  destruct (Z.ltb_spec (d / 60000) 60) as [H2 | H2].
  { right; left. split; [by_division |]. split; [lia | reflexivity]. }
  destruct (Z.ltb_spec (d / 3600000) 24) as [H3 | H3].
  - destruct (Z.ltb_spec 1 (d / 3600000)) as [H4 | H4].
    + right; right; right; left. split; [by_division |]. split; [lia | reflexivity].
    + right; right; left.
      assert (E' : d / 3600000 = 1) by by_division.
      split; [by_division | now rewrite E'].
  - destruct (Z.ltb_spec 1 (d / 86400000)) as [H4 | H4].
    + do 5 right. split; [by_division |]. split; [lia | reflexivity].
    + do 4 right; left.
      assert (E' : d / 86400000 = 1) by by_division.
      split; [by_division | now rewrite E'].
Qed.

Lemma getTimeAgo_ranges_witness :
  Z.abs 8640000000000000 <= 8640000000000000
  /\ getTimeAgo 8640000000000000 None = "NaN day ago".
Proof.
  assert (H : Z.abs 8640000000000000 <= 8640000000000000) by (cbn; lia).
  split; [exact H |].
  exact (getTimeAgo_ranges 8640000000000000 None H).
Defined.

(** The two cases the integers alone would miss: a date that does not
    parse, and a difference beyond 2^53 ms, which the subtraction rounds. *)
Example getTimeAgo_at_the_limits :
  getTimeAgo 1700000000000 None = "NaN day ago"
  /\ getTimeAgo 8640000000000000 (Some (-8639999999999999)) = "200000000 days ago".
Proof. split; reflexivity. Qed.

Ltac by_eqb :=
  repeat match goal with
         | |- context [String.eqb ?a ?b] => destruct (String.eqb_spec a b)
         | H : context [String.eqb ?a ?b] |- _ => destruct (String.eqb_spec a b)
         end.

(** A card whose [task_type] is none of the four known ones is drawn as a
    supplier follow-up (phone icon, "moderate" colours, "Follow-up"), since
    the [default] of [getTaskTypeConfig] shares that case, while
    [getTaskTitle] calls it "Agent Activity". *)
Theorem unknown_task_type_is_drawn_as_followup (a : activity) :
  task_type a <> "delivery_risk" ->
  task_type a <> "price_update" ->
  task_type a <> "product_discovery" ->
  task_type a <> "supplier_followup" ->
  getTaskTypeConfig a = getTaskTypeConfig (mkActivity "supplier_followup" (status a))
  /\ taskIcon (getTaskTypeConfig a) = Phone
  /\ shortTitle (getTaskTypeConfig a) = "Follow-up"
  /\ getTaskTitle a = "Agent Activity".
Proof.
  intros H1 H2 H3 H4. unfold getTaskTypeConfig, getTaskTitle. cbn [task_type status].
  by_eqb; try contradiction; try discriminate; auto.
Qed.

Lemma unknown_task_type_is_drawn_as_followup_witness :
  getTaskTitle (mkActivity "inventory_check" "running") = "Agent Activity".
Proof.
  refine (proj2 (proj2 (proj2
    (unknown_task_type_is_drawn_as_followup (mkActivity "inventory_check" "running")
       _ _ _ _)))); cbn; discriminate.
Defined.

(** The status icon and the status badge of a card go together: both are
    missing exactly when the status is none of running, pending, completed,
    failed; and for a running or pending card the pulsing dot and the
    badge border take the colour of the card's icon. *)
Theorem status_icon_and_badge_agree (a : activity) :
  let cfg := getTaskTypeConfig a in
  (getStatusIcon a cfg = None <-> getStatusBadge a cfg = None)
  /\ (getStatusIcon a cfg = None <->
      status a <> "running" /\ status a <> "pending"
      /\ status a <> "completed" /\ status a <> "failed")
  /\ (status a = "running" \/ status a = "pending" ->
      exists colour,
        iconColor cfg = "text-" ++ colour
        /\ getStatusIcon a cfg = Some (PulseDot ("bg-" ++ colour))
        /\ getStatusBadge a cfg =
             Some (mkBadge (bgColor cfg ++ " " ++ iconColor cfg
                              ++ " border-" ++ colour ++ "/20")
                           (if (status a =? "running")%string
                            then "In Progress" else "Pending"))).
Proof.
  intros cfg. subst cfg. unfold getStatusIcon, getStatusBadge.
  split; [| split].
  - by_eqb; cbn [orb]; split; intros H; try discriminate H; reflexivity.
  - destruct (String.eqb_spec (status a) "running");
      destruct (String.eqb_spec (status a) "pending");
      destruct (String.eqb_spec (status a) "completed");
      destruct (String.eqb_spec (status a) "failed"); cbn [orb];
      split; intros H; try discriminate H; try reflexivity;
      try (destruct H as (? & ? & ? & ?); contradiction); auto.
  - intros Hs.
    assert (Hr : ((status a =? "running") || (status a =? "pending"))%string = true).
    { destruct Hs as [-> | ->]; reflexivity. }
    rewrite Hr. unfold getTaskTypeConfig.
    destruct (String.eqb_spec (task_type a) "delivery_risk");
      [exists "critical"; cbn; auto |].
    destruct (String.eqb_spec (task_type a) "price_update");
      [exists "low"; cbn; auto |].
    destruct (String.eqb_spec (task_type a) "product_discovery");
      [exists "primary"; cbn; auto |].
    exists "moderate"; cbn; auto.
Qed.

(** Past the guard, [handleViewTranscript] always clears the loading marker
    ([finally]); the dialog changes only when the request is fulfilled, and
    then holds the text, or "No transcript content available" when the text
    is missing or empty; a rejected request leaves the dialog as it was and
    shows the one "Failed to load transcript" toast after [console.error]. *)
Theorem handleViewTranscript_outcomes (api : agentApi)
    (taskId conversationId : nullable) (supplier : string) (c : component) :
  truthy taskId || truthy conversationId = true ->
  let c' := handleViewTranscript api taskId conversationId supplier c in
  let request :=
    if truthy taskId then GetTranscriptByTaskId (unwrap taskId)
    else GetTranscriptByConversationId (unwrap conversationId) in
  let answer :=
    if truthy taskId then getTranscriptByTaskId api (unwrap taskId)
    else getTranscriptByConversationId api (unwrap conversationId) in
  loadingTranscript c' = None
  /\ match answer with
     | Fulfilled text =>
         transcriptDialog c' =
           mkDialog true
             (if truthy text then unwrap text else "No transcript content available")
             (Some supplier)
         /\ effects c' = (effects c ++ [request])%list
     | Rejected error =>
         transcriptDialog c' = transcriptDialog c
         /\ effects c' =
              (effects c ++
               [request; ConsoleError "Error fetching transcript:" error;
                Toast "Error" "Failed to load transcript" "destructive"])%list
     end.
Proof.
  intros H c' request answer. subst c' request answer. unfold handleViewTranscript.
  replace (negb (truthy taskId) && negb (truthy conversationId)) with false
    by (destruct (truthy taskId), (truthy conversationId); try reflexivity; discriminate).
  destruct (truthy taskId); cbn [fst snd].
  - destruct (getTranscriptByTaskId api (unwrap taskId)) as [text | err];
      cbn; [unfold js_or; destruct (truthy text) |]; cbn;
      rewrite <- ?app_assoc; auto.
  - destruct (getTranscriptByConversationId api (unwrap conversationId)) as [text | err];
      cbn; [unfold js_or; destruct (truthy text) |]; cbn;
      rewrite <- ?app_assoc; auto.
Qed.

Lemma handleViewTranscript_outcomes_witness :
  loadingTranscript
    (handleViewTranscript demo_api (Some "task_7") None "Acme"
       (setLoadingTranscript (Some "task_3") mounted)) = None.
Proof.
  exact (proj1 (handleViewTranscript_outcomes demo_api (Some "task_7") None "Acme"
                  (setLoadingTranscript (Some "task_3") mounted) eq_refl)).
Defined.

(** [handleRecall] never starts a conversation with an empty agent name: a
    missing or empty [agentName] becomes "products", any other is passed on.
    It makes that one request, and shows one toast, the destructive one
    exactly when the request fails. *)
Theorem handleRecall_names_an_agent
    (startConversation : string -> string -> outcome unit)
    (supplier : string) (agentName : nullable) :
  let agent := if truthy agentName then unwrap agentName else "products" in
  agent <> ""
  /\ exists shown,
       handleRecall startConversation supplier agentName =
         (StartConversation supplier agent :: shown)%list
       /\ match startConversation supplier agent with
          | Resolved _ =>
              shown = [Notify "Re-calling Supplier"
                         ("Agent is calling " ++ supplier ++ " again...") None]
          | Failed error =>
              shown = [LogError "Error starting conversation:" error;
                       Notify "Error" "Failed to start conversation"
                              (Some "destructive")]
          end.
Proof.
  intros agent. subst agent. unfold handleRecall, js_or.
  destruct agentName as [s|]; cbn [truthy unwrap].
  - destruct (String.eqb_spec s ""); cbn [negb truthy unwrap].
    + split; [discriminate |]. eexists. split; [reflexivity |].
      now destruct (startConversation supplier "products").
    + split; [assumption |]. eexists. split; [reflexivity |].
      now destruct (startConversation supplier s).
  - split; [discriminate |]. eexists. split; [reflexivity |].
    now destruct (startConversation supplier "products").
Qed.

(** [fetchData] is all or nothing: it asks for the summary and for the
    recap, both with limit 10; when both come back it stores both, and when
    either fails it stores neither (even the one that came back), logs the
    error and shows one toast; in every case [loading] ends false. *)
Theorem fetchData_all_or_nothing
    (getActivitySummary : Z -> outcome AgentActivitySummary)
    (getActivityRecap : Z -> outcome (list activity))
    (recap_first : bool) (b : board) :
  let r := fetchData getActivitySummary getActivityRecap recap_first b in
  loading (fst r) = false
  /\ firstn 2 (snd r) = [GetActivitySummary 10; GetActivityRecap 10]
  /\ match getActivitySummary 10, getActivityRecap 10 with
     | Resolved s, Resolved recap =>
         summary (fst r) = Some s /\ activities (fst r) = recap
         /\ snd r = [GetActivitySummary 10; GetActivityRecap 10]
     | _, _ =>
         summary (fst r) = summary b /\ activities (fst r) = activities b
         /\ exists error,
              snd r = [GetActivitySummary 10; GetActivityRecap 10;
                       LogError "Error fetching agent data:" error;
                       Notify "Error" "Failed to load agent activity data"
                              (Some "destructive")]
     end.
Proof.
  intros r. subst r. unfold fetchData.
  destruct (getActivitySummary 10), (getActivityRecap 10); cbn; eauto 10.
Qed.

End DashboardFacts.

(* ------------------------------------------------------------------ *)
(** ** The guide's excerpts at work                                     *)
(* ------------------------------------------------------------------ *)

Module SessionFacts.

Import PyStr PyStrFacts Supervisor SupervisorFacts DetectorFacts Session.
Local Open Scope N_scope.
Local Open Scope list_scope.

#[local] Hint Extern 1 (tame _) => unfold tame; cbn; repeat constructor : quiet.

#[local] Hint Resolve quiet_boot quiet_emit quiet_set_shutdown_flag quiet_advance
  quiet_spawn force_end_tame wait_with_timeout_tame
  within_is_exit within_is_flush within_is_end_session
  within_is_join_back within_is_sigint : quiet.

(** *** Keywords *)

Ltac to_arith :=
  repeat match goal with
         | H : andb _ _ = true |- _ => apply andb_true_iff in H; destruct H
         | H : negb _ = true |- _ => apply negb_true_iff in H
         | H : N.leb _ _ = true |- _ => apply N.leb_le in H
         | H : N.eqb _ _ = true |- _ => apply N.eqb_eq in H
         | H : N.eqb _ _ = false |- _ => apply N.eqb_neq in H
         end.

Lemma lower_cp_fixed (x : N) :
  x < 65 \/ 90 < x -> x < 192 \/ 222 < x \/ x = 215 -> x <> 338 -> x <> 376 ->
  lower_cp x = x.
Proof.
  intros H1 H2 H3 H4. unfold lower_cp.
  destruct ((65 <=? x) && (x <=? 90)) eqn:A; [to_arith; lia |].
  destruct ((192 <=? x) && (x <=? 222) && negb (x =? 215)) eqn:B; [to_arith; lia |].
  destruct (x =? 338) eqn:C; [to_arith; lia |].
  destruct (x =? 376) eqn:D; [to_arith; lia | reflexivity].
Qed.

Lemma lower_cp_idempotent (c : N) : lower_cp (lower_cp c) = lower_cp c.
Proof.
  unfold lower_cp at 2 3.
  destruct ((65 <=? c) && (c <=? 90)) eqn:A;
    [to_arith; apply lower_cp_fixed; lia |].
  destruct ((192 <=? c) && (c <=? 222) && negb (c =? 215)) eqn:B;
    [to_arith; apply lower_cp_fixed; lia |].
  destruct (c =? 338) eqn:C; [reflexivity |].
  destruct (c =? 376) eqn:D; [reflexivity |].
  unfold lower_cp. now rewrite A, B, C, D.
Qed.

Lemma lower_app (a b : str) : lower (a ++ b) = lower a ++ lower b.
Proof. apply map_app. Qed.

(** What [str.lower()] gives holds lower-case text only, and so does every
    part of it. *)
Lemma part_of_lowered (k pre post r : str) :
  lower r = pre ++ k ++ post -> lower k = k.
Proof.
  intros H.
  assert (Hall : Forall (fun c => lower_cp c = c) (lower r)).
  { unfold lower. apply Forall_forall. intros c Hc. apply in_map_iff in Hc.
    destruct Hc as [c' [<- _]]. apply lower_cp_idempotent. }
  rewrite H in Hall. apply Forall_app in Hall. destruct Hall as [_ Hall].
  apply Forall_app in Hall. destruct Hall as [Hk _].
  clear - Hk. unfold lower.
  induction Hk as [|c k Hc _ IH]; cbn [map]; [reflexivity |].
  now rewrite Hc, IH.
Qed.

(** The test [keyword in response.lower()] lowers the response only: a
    keyword written with a capital letter can never be found, whatever the
    agent says. *)
Theorem capitalised_keyword_never_matches (keyword : str) :
  lower keyword <> keyword ->
  forall response, contains keyword (lower response) = false.
Proof.
  intros Hk response. destruct (contains keyword (lower response)) eqn:E; [| reflexivity].
  apply contains_spec in E. destruct E as [pre [post E]].
  apply part_of_lowered in E. congruence.
Qed.

Lemma capitalised_keyword_never_matches_witness :
  contains (lit "Goodbye") (lower (lit "Goodbye, thank you for your time")) = false.
Proof.
  apply (capitalised_keyword_never_matches (lit "Goodbye")).
  vm_compute. discriminate.
Defined.

(** An utterance that holds a detected utterance is detected, whatever
    comes before and after it; the empty utterance is not. *)
Theorem detection_survives_context (pre response post : str) :
  agent_is_ending response = true ->
  agent_is_ending (pre ++ response ++ post) = true
  /\ agent_is_ending [] = false.
Proof.
  intros H. split; [| reflexivity].
  apply agent_is_ending_iff in H. destruct H as [k [Hin [a [b Hk]]]].
  apply agent_is_ending_iff. exists k. split; [exact Hin |].
  exists (lower pre ++ a), (b ++ lower post).
  rewrite !lower_app, Hk, <- !app_assoc. reflexivity.
Qed.

Lemma detection_survives_context_witness :
  agent_is_ending (lit "Bien. " ++ lit "Au revoir" ++ lit " et bonne route") = true.
Proof.
  apply (detection_survives_context (lit "Bien. ") (lit "Au revoir")
           (lit " et bonne route")).
  reflexivity.
Defined.

(** Over a conversation [on_agent_response] records every utterance of the
    agent, in order, under the speaker "agent", and prints its [INFO] line
    once for each utterance that holds a closing phrase; it changes nothing
    else of the process. *)
Theorem conversation_is_recorded (responses : list str) (p : proc) :
  let q := agent_says responses p in
  transcript q = transcript p ++ map (pair (lit "agent")) responses
  /\ trace q = trace p ++
       map (fun _ => (now p, Print (10 :: lit "[INFO] Agent is ending the conversation...")))
           (filter agent_is_ending responses)
  /\ now q = now p /\ status q = status p /\ shutdown_flag q = shutdown_flag p
  /\ conversation_id q = conversation_id p /\ pending q = pending p
  /\ threads q = threads p.
Proof.
  revert p. induction responses as [|r rs IH]; intros p; cbn [agent_says fold_left].
  - cbn. now rewrite !app_nil_r.
  - specialize (IH (on_agent_response r p)). cbn zeta in IH. unfold agent_says in IH.
    destruct IH as (Ht & Htr & Hn & Hs & Hf & Hc & Hp & Hth).
    rewrite Ht, Htr, Hn, Hs, Hf, Hc, Hp, Hth.
    unfold on_agent_response. cbn [filter map].
    destruct (agent_is_ending r); cbn; rewrite <- ?app_assoc, ?app_nil_r;
      repeat split; reflexivity.
Qed.

(** *** Where nothing bounds the wait *)

Lemma earliest_deadline (a : option N) (d : N) :
  exists u, earliest a (Some d) = Some u.
Proof. destruct a; cbn; eauto. Qed.

(** Only [end_session()] is raced against the two seconds.  The handler
    calls the transcript flush plainly: if that call never comes back and no
    other interrupt arrives, [os._exit(0)] is never reached.  And
    [wait_thread.join()] has no timeout: a session whose end never comes is
    waited for until an interrupt arrives. *)
Theorem unbounded_waits (e : env) (s : N) :
  (flush e (Handler 0) = Hangs -> running_at e s ->
   status (run_session e [s]) = Blocked /\ exit_time (run_session e [s]) = None)
  /\ (wait_for_session_end e = Hangs ->
      status (run_session e []) = Blocked
      /\ milestones (run_session e []) = [Start WaitThread; Call WaitForSessionEnd]).
Proof.
  split.
  - intros Hf Hrun. rewrite (first_interrupt_taken e s [] Hrun).
    cbn [signal_handler]. unfold join. cbn [option_map].
    match goal with
    | |- context [earliest ?a (Some ?d)] =>
        destruct (earliest_deadline a d) as [u ->]
    end.
    cbn [interruptible resume]. unfold save_transcript_on_exit. rewrite Hf.
    cbn [duration option_map interruptible resume]. unfold exit_time.
    now rewrite status_block_forever.
  - intros Hw.
    assert (Hfin : finish (wait_with_timeout e) = None)
      by (unfold wait_with_timeout; now rewrite Hw).
    unfold run_session, join. rewrite threads_spawn, Hfin.
    cbn [over_at option_map earliest interruptible resume].
    split; [apply status_block_forever |].
    rewrite milestones_block_forever, milestones_spawn, at_start_wait_with_timeout
      by auto with quiet.
    reflexivity.
Qed.

(** *** The conversation id *)

#[local] Hint Rewrite now_emit threads_emit status_emit
  now_set_shutdown_flag threads_set_shutdown_flag status_set_shutdown_flag
  now_advance threads_advance status_advance
  now_os_exit status_os_exit status_block_forever
  now_spawn status_spawn threads_spawn : fields.

Ltac observe :=
  cbn [conversation_id trace pending now boot os_exit emit advance spawn
       block_forever fold_left filter assigned schedule fst snd option_map
       at_start at_finish finish app negb N.add].

(** When the session ends by itself, [wait_with_timeout] leaves the id that
    [wait_for_session_end()] returned in [conversation_id]; when the call
    raises, [conversation_id] keeps its old value and the [ERROR] line is
    printed at the time of the failure. *)
Theorem wait_records_the_conversation_id (e : env) (f : N) :
  duration (flush e Normal) = Some f ->
  let p := run_session e [] in
  match wait_for_session_end e with
  | Returns d =>
      conversation_id p = Some (session_id e)
      /\ In (d, Assign (session_id e)) (trace p)
  | Raises d msg =>
      conversation_id p = None
      /\ In (d, Print (10 :: fmt "[ERROR] Session ended with error: " msg)) (trace p)
  | Hangs => conversation_id p = None
  end.
Proof.
  intros Hf p. revert p.
  assert (H : forall p, p = run_session e [] ->
            match wait_for_session_end e with
            | Returns d =>
                conversation_id p = Some (session_id e)
                /\ In (d, Assign (session_id e)) (trace p)
            | Raises d msg =>
                conversation_id p = None
                /\ In (d, Print (10 :: fmt "[ERROR] Session ended with error: " msg))
                      (trace p)
            | Hangs => conversation_id p = None
            end); [| intros p; now apply H].
  destruct (wait_for_session_end e) as [d|d ew|] eqn:Ew;
    destruct (flush e Normal) as [ff|ff ef|] eqn:E;
    cbn [duration] in Hf; try discriminate Hf.
  all: execute; intros p ->; observe; repeat (cmp; observe).
  all: try reflexivity; split; try reflexivity; cbn [In]; auto 10.
Qed.

Lemma wait_records_the_conversation_id_witness :
  conversation_id
    (run_session (mkEnv (Returns 900) (lit "conv_9") (fun _ => Hangs)
                        (fun _ => Returns 5)) []) = Some (lit "conv_9").
Proof.
  exact (proj1 (wait_records_the_conversation_id
                  (mkEnv (Returns 900) (lit "conv_9") (fun _ => Hangs)
                         (fun _ => Returns 5)) 5 eq_refl)).
Defined.

End SessionFacts.
